(** * Detective Logic: the game progression core of [App.tsx]

    A shallow embedding of the state held by the [App] component and of the
    handlers that change it: case start and clue locking, the clue gate
    (click, puzzle success), solution submission and the XP reward, and the
    result screens.  Each handler is a function from the component state to
    the next state and the list of calls it issues to the outside
    (generation service, authentication service, timers).

    Conventions.
    - A handler runs against the committed state and all its [setX] calls
      are applied together, as React does for one event.
    - An [async] handler is cut at its [await]: the part before it, and one
      function per way the awaited call can end.
    - Clue identifiers ([number] in the source) are integers.
    - A double is its exact rational value: the literals [0.6] and [0.4] are
      the doubles nearest to 6/10 and 4/10, [<] on doubles is [<] on their
      values, and a product is the exact product rounded to the nearest
      double, ties to even. *)

From Stdlib Require Import ZArith List String Bool QArith Qround Qpower Lia.
From Stdlib Require Import Lqa.
From Stdlib Require Import DecimalString.
Import ListNotations.
Local Open Scope string_scope.
Local Open Scope list_scope.
Local Open Scope Z_scope.

(** ** Types ([types.ts]) *)

Inductive Difficulty := Easy | Medium | Hard.

Inductive ClueType := Observation | Testimony | Physical | Context.

Record Clue := {
  clue_id : Z;
  clue_text : string;
  clue_type : ClueType;
  clue_isRedHerring : bool
}.

Record Option := {
  option_id : string;
  option_text : string
}.

Record MysteryCase := {
  title : string;
  scenario : string;
  difficulty : Difficulty;
  clues : list Clue;
  options : list Option;
  correctOptionId : string;
  explanation : string
}.

Record User := {
  username : string;
  level : Z;
  currentXP : Z;
  xpToNextLevel : Z;
  casesSolved : Z;
  totalXp : Z
}.

Inductive GameState :=
  Auth | Idle | Loading | Playing | Solving | Success | Failure | Error.

Definition Difficulty_eqb (a b : Difficulty) : bool :=
  match a, b with
  | Easy, Easy | Medium, Medium | Hard, Hard => true
  | _, _ => false
  end.

Definition ClueType_eqb (a b : ClueType) : bool :=
  match a, b with
  | Observation, Observation | Testimony, Testimony
  | Physical, Physical | Context, Context => true
  | _, _ => false
  end.

Definition GameState_eqb (a b : GameState) : bool :=
  match a, b with
  | Auth, Auth | Idle, Idle | Loading, Loading | Playing, Playing
  | Solving, Solving | Success, Success | Failure, Failure
  | Error, Error => true
  | _, _ => false
  end.

(** ** Component state: the [useState] variables of [App] *)

Record AppState := {
  user : option User;
  gameState : GameState;
  mystery : option MysteryCase;
  revealedClues : list Z;
  lockedClues : list Z;
  activePuzzleClueId : option Z;
  isCelebrating : bool;
  selectedDifficulty : Difficulty;
  hint : option string;
  isHintLoading : bool;
  selectedOption : option string;
  error : option string;
  loadingMsg : string;
  showLevelUp : bool;
  xpGained : Z
}.

Definition LOADING_MESSAGES : list string := [
  "Dusting for fingerprints on a donut...";
  "Interrogating the coffee machine...";
  "Chasing a very suspicious squirrel...";
  "Reading 'Detective Work for Dummies'...";
  "Looking for my magnifying glass...";
  "Connecting red strings on a corkboard...";
  "Bribing a witness with cat treats..."
].

(** The initial values given to [useState]. *)
Definition initialState : AppState := {|
  user := None;
  gameState := Auth;
  mystery := None;
  revealedClues := [];
  lockedClues := [];
  activePuzzleClueId := None;
  isCelebrating := false;
  selectedDifficulty := Easy;
  hint := None;
  isHintLoading := false;
  selectedOption := None;
  error := None;
  loadingMsg := nth 0 LOADING_MESSAGES EmptyString;
  showLevelUp := false;
  xpGained := 0
|}.

(** *** State setters *)

Definition setUser (v : option User) (s : AppState) : AppState :=
  {| user := v; gameState := gameState s; mystery := mystery s;
     revealedClues := revealedClues s; lockedClues := lockedClues s;
     activePuzzleClueId := activePuzzleClueId s;
     isCelebrating := isCelebrating s;
     selectedDifficulty := selectedDifficulty s; hint := hint s;
     isHintLoading := isHintLoading s; selectedOption := selectedOption s;
     error := error s; loadingMsg := loadingMsg s;
     showLevelUp := showLevelUp s; xpGained := xpGained s |}.

Definition setGameState (v : GameState) (s : AppState) : AppState :=
  {| user := user s; gameState := v; mystery := mystery s;
     revealedClues := revealedClues s; lockedClues := lockedClues s;
     activePuzzleClueId := activePuzzleClueId s;
     isCelebrating := isCelebrating s;
     selectedDifficulty := selectedDifficulty s; hint := hint s;
     isHintLoading := isHintLoading s; selectedOption := selectedOption s;
     error := error s; loadingMsg := loadingMsg s;
     showLevelUp := showLevelUp s; xpGained := xpGained s |}.

Definition setMystery (v : option MysteryCase) (s : AppState) : AppState :=
  {| user := user s; gameState := gameState s; mystery := v;
     revealedClues := revealedClues s; lockedClues := lockedClues s;
     activePuzzleClueId := activePuzzleClueId s;
     isCelebrating := isCelebrating s;
     selectedDifficulty := selectedDifficulty s; hint := hint s;
     isHintLoading := isHintLoading s; selectedOption := selectedOption s;
     error := error s; loadingMsg := loadingMsg s;
     showLevelUp := showLevelUp s; xpGained := xpGained s |}.

(** [setRevealedClues] and [setLockedClues] take an updater, as the handlers
    that read the previous value do ([prev => ...]). *)
Definition setRevealedClues (f : list Z -> list Z) (s : AppState) : AppState :=
  {| user := user s; gameState := gameState s; mystery := mystery s;
     revealedClues := f (revealedClues s); lockedClues := lockedClues s;
     activePuzzleClueId := activePuzzleClueId s;
     isCelebrating := isCelebrating s;
     selectedDifficulty := selectedDifficulty s; hint := hint s;
     isHintLoading := isHintLoading s; selectedOption := selectedOption s;
     error := error s; loadingMsg := loadingMsg s;
     showLevelUp := showLevelUp s; xpGained := xpGained s |}.

Definition setLockedClues (f : list Z -> list Z) (s : AppState) : AppState :=
  {| user := user s; gameState := gameState s; mystery := mystery s;
     revealedClues := revealedClues s; lockedClues := f (lockedClues s);
     activePuzzleClueId := activePuzzleClueId s;
     isCelebrating := isCelebrating s;
     selectedDifficulty := selectedDifficulty s; hint := hint s;
     isHintLoading := isHintLoading s; selectedOption := selectedOption s;
     error := error s; loadingMsg := loadingMsg s;
     showLevelUp := showLevelUp s; xpGained := xpGained s |}.

Definition setActivePuzzleClueId (v : option Z) (s : AppState) : AppState :=
  {| user := user s; gameState := gameState s; mystery := mystery s;
     revealedClues := revealedClues s; lockedClues := lockedClues s;
     activePuzzleClueId := v;
     isCelebrating := isCelebrating s;
     selectedDifficulty := selectedDifficulty s; hint := hint s;
     isHintLoading := isHintLoading s; selectedOption := selectedOption s;
     error := error s; loadingMsg := loadingMsg s;
     showLevelUp := showLevelUp s; xpGained := xpGained s |}.

Definition setIsCelebrating (v : bool) (s : AppState) : AppState :=
  {| user := user s; gameState := gameState s; mystery := mystery s;
     revealedClues := revealedClues s; lockedClues := lockedClues s;
     activePuzzleClueId := activePuzzleClueId s;
     isCelebrating := v;
     selectedDifficulty := selectedDifficulty s; hint := hint s;
     isHintLoading := isHintLoading s; selectedOption := selectedOption s;
     error := error s; loadingMsg := loadingMsg s;
     showLevelUp := showLevelUp s; xpGained := xpGained s |}.

Definition setSelectedDifficulty (v : Difficulty) (s : AppState) : AppState :=
  {| user := user s; gameState := gameState s; mystery := mystery s;
     revealedClues := revealedClues s; lockedClues := lockedClues s;
     activePuzzleClueId := activePuzzleClueId s;
     isCelebrating := isCelebrating s;
     selectedDifficulty := v; hint := hint s;
     isHintLoading := isHintLoading s; selectedOption := selectedOption s;
     error := error s; loadingMsg := loadingMsg s;
     showLevelUp := showLevelUp s; xpGained := xpGained s |}.

Definition setHint (v : option string) (s : AppState) : AppState :=
  {| user := user s; gameState := gameState s; mystery := mystery s;
     revealedClues := revealedClues s; lockedClues := lockedClues s;
     activePuzzleClueId := activePuzzleClueId s;
     isCelebrating := isCelebrating s;
     selectedDifficulty := selectedDifficulty s; hint := v;
     isHintLoading := isHintLoading s; selectedOption := selectedOption s;
     error := error s; loadingMsg := loadingMsg s;
     showLevelUp := showLevelUp s; xpGained := xpGained s |}.

Definition setIsHintLoading (v : bool) (s : AppState) : AppState :=
  {| user := user s; gameState := gameState s; mystery := mystery s;
     revealedClues := revealedClues s; lockedClues := lockedClues s;
     activePuzzleClueId := activePuzzleClueId s;
     isCelebrating := isCelebrating s;
     selectedDifficulty := selectedDifficulty s; hint := hint s;
     isHintLoading := v; selectedOption := selectedOption s;
     error := error s; loadingMsg := loadingMsg s;
     showLevelUp := showLevelUp s; xpGained := xpGained s |}.

Definition setSelectedOption (v : option string) (s : AppState) : AppState :=
  {| user := user s; gameState := gameState s; mystery := mystery s;
     revealedClues := revealedClues s; lockedClues := lockedClues s;
     activePuzzleClueId := activePuzzleClueId s;
     isCelebrating := isCelebrating s;
     selectedDifficulty := selectedDifficulty s; hint := hint s;
     isHintLoading := isHintLoading s; selectedOption := v;
     error := error s; loadingMsg := loadingMsg s;
     showLevelUp := showLevelUp s; xpGained := xpGained s |}.

Definition setError (v : option string) (s : AppState) : AppState :=
  {| user := user s; gameState := gameState s; mystery := mystery s;
     revealedClues := revealedClues s; lockedClues := lockedClues s;
     activePuzzleClueId := activePuzzleClueId s;
     isCelebrating := isCelebrating s;
     selectedDifficulty := selectedDifficulty s; hint := hint s;
     isHintLoading := isHintLoading s; selectedOption := selectedOption s;
     error := v; loadingMsg := loadingMsg s;
     showLevelUp := showLevelUp s; xpGained := xpGained s |}.

Definition setLoadingMsg (v : string) (s : AppState) : AppState :=
  {| user := user s; gameState := gameState s; mystery := mystery s;
     revealedClues := revealedClues s; lockedClues := lockedClues s;
     activePuzzleClueId := activePuzzleClueId s;
     isCelebrating := isCelebrating s;
     selectedDifficulty := selectedDifficulty s; hint := hint s;
     isHintLoading := isHintLoading s; selectedOption := selectedOption s;
     error := error s; loadingMsg := v;
     showLevelUp := showLevelUp s; xpGained := xpGained s |}.

Definition setShowLevelUp (v : bool) (s : AppState) : AppState :=
  {| user := user s; gameState := gameState s; mystery := mystery s;
     revealedClues := revealedClues s; lockedClues := lockedClues s;
     activePuzzleClueId := activePuzzleClueId s;
     isCelebrating := isCelebrating s;
     selectedDifficulty := selectedDifficulty s; hint := hint s;
     isHintLoading := isHintLoading s; selectedOption := selectedOption s;
     error := error s; loadingMsg := loadingMsg s;
     showLevelUp := v; xpGained := xpGained s |}.

Definition setXpGained (v : Z) (s : AppState) : AppState :=
  {| user := user s; gameState := gameState s; mystery := mystery s;
     revealedClues := revealedClues s; lockedClues := lockedClues s;
     activePuzzleClueId := activePuzzleClueId s;
     isCelebrating := isCelebrating s;
     selectedDifficulty := selectedDifficulty s; hint := hint s;
     isHintLoading := isHintLoading s; selectedOption := selectedOption s;
     error := error s; loadingMsg := loadingMsg s;
     showLevelUp := showLevelUp s; xpGained := v |}.

(** ** Calls issued to the outside *)

Inductive Effect :=
| CallGenerateMystery (d : Difficulty)          (* generateMystery(difficulty) *)
| CallGetHint (m : MysteryCase) (revealed : list Z) (* getHint(mystery, revealedClues) *)
| CallAddXp (amount : Z)                        (* authService.addXp(xp) *)
| CallLogout                                    (* authService.logout() *)
| SetTimeoutShowLevelUp (delay : Z)             (* setTimeout(() => setShowLevelUp(true), 3500) *)
| ConsoleError.                                 (* console.error(...) *)

(** ** JavaScript tests used by the handlers *)

(** Truthiness of a [string | null] value: [null] and the empty string are
    falsy, every other string is truthy. *)
Definition truthy (v : option string) : bool :=
  match v with
  | None => false
  | Some EmptyString => false
  | Some (String _ _) => true
  end.

(** [v === t] for [v : string | null] and [t : string]. *)
Definition strictEq (v : option string) (t : string) : bool :=
  match v with
  | None => false
  | Some x => String.eqb x t
  end.

(** [arr.includes(x)] on a [number[]]. *)
Definition includes (arr : list Z) (x : Z) : bool :=
  existsb (Z.eqb x) arr.

Definition isSome {A : Type} (v : option A) : bool :=
  match v with Some _ => true | None => false end.

(** [x < y] on the values of [Math.random()] and the thresholds. *)
Definition Qltb (x y : Q) : bool := negb (Qle_bool y x).

(** *** Doubles *)

(** The largest [e] with [2 ^ e <= x], for [x > 0]. *)
Definition log2floor (x : Q) : Z :=
  let e0 := Z.log2 (Qnum x) - Z.log2 (Z.pos (Qden x)) in
  if Qle_bool (2 ^ e0) x then e0 else e0 - 1.

(** The integer nearest to [q], ties to the even one. *)
Definition roundNearestEven (q : Q) : Z :=
  let n := Qfloor q in
  match Qcompare (q - inject_Z n) (1 # 2) with
  | Lt => n
  | Gt => n + 1
  | Eq => if Z.even n then n else n + 1
  end.

(** The exponent of the unit in the last place of the doubles around
    [x > 0]: 53 significant bits, and the subnormal spacing below
    [2 ^ -1022]. *)
Definition ulpExponent (x : Q) : Z :=
  Z.max (log2floor x) (-1022) - 52.

(** The double nearest to [x >= 0], ties to even, as a fraction in lowest
    terms.  The numbers rounded here are below 8, far from the overflow
    threshold. *)
Definition roundDouble (x : Q) : Q :=
  if Qle_bool x 0 then 0%Q
  else Qred (inject_Z (roundNearestEven (x / 2 ^ ulpExponent x))
             * 2 ^ ulpExponent x)%Q.

(** [x * y] on doubles: the exact product, rounded. *)
Definition mulDouble (x y : Q) : Q := roundDouble (x * y).

(** The rationals that are values of doubles: rounding leaves them as they
    are. *)
Definition isDouble (x : Q) : Prop := (roundDouble x == x)%Q.

(** [LOADING_MESSAGES[Math.floor(Math.random() * LOADING_MESSAGES.length)]]
    for the value [r] returned by [Math.random()]. *)
Definition randomLoadingMessage (r : Q) : string :=
  nth (Z.to_nat
         (Qfloor (mulDouble r
                    (inject_Z (Z.of_nat (List.length LOADING_MESSAGES))))))
      LOADING_MESSAGES EmptyString.

(** ** Authentication handlers *)

(** The mount effect: [authService.getCurrentUser()] returned [currentUser],
    and [hasApiKey] is [!!process.env.API_KEY]. *)
Definition initialAuthCheck (currentUser : option User) (hasApiKey : bool)
    (s : AppState) : AppState * list Effect :=
  let s1 :=
    match currentUser with
    | Some u => setGameState Idle (setUser (Some u) s)
    | None => setGameState Auth s
    end in
  let s2 :=
    if negb hasApiKey
    then setError (Some "Missing API Key. Please provide a valid API Key in the environment.") s1
    else s1 in
  (s2, []).

Definition handleLogin (loggedInUser : User) (s : AppState)
    : AppState * list Effect :=
  (setGameState Idle (setUser (Some loggedInUser) s), []).

Definition handleLogout (s : AppState) : AppState * list Effect :=
  (setMystery None (setGameState Auth (setUser None s)), [CallLogout]).

(** ** Case start and the initial locks ([startGame]) *)

(** [startGame] up to its [await]; [r] is the value of the [Math.random()]
    that picks the loading message. *)
Definition startGame (d : Difficulty) (r : Q) (s : AppState)
    : AppState * list Effect :=
  (setIsCelebrating false
    (setError None
      (setSelectedOption None
        (setHint None
          (setLockedClues (fun _ => [])
            (setRevealedClues (fun _ => [])
              (setSelectedDifficulty d
                (setLoadingMsg (randomLoadingMessage r)
                  (setGameState Loading s)))))))),
   [CallGenerateMystery d]).

Definition isLockable (clue : Clue) : bool :=
  ClueType_eqb (clue_type clue) Physical
  || ClueType_eqb (clue_type clue) Testimony.

(** [difficulty === Difficulty.Hard ? 0.6 : 0.4].  The literals denote
    doubles: [0.6] is [5404319552844595 / 2 ^ 53] and [0.4] is
    [3602879701896397 / 2 ^ 53], the doubles nearest to 6/10 and 4/10. *)
Definition chance (d : Difficulty) : Q :=
  if Difficulty_eqb d Hard
  then 5404319552844595 # 9007199254740992
  else 3602879701896397 # 9007199254740992.

(** The [forEach] over [newCase.clues].  [random n] is the value of the
    [n]-th call of [Math.random()] and [calls] counts the calls made so far:
    [isLockable && Math.random() < chance] draws a number only for a lockable
    clue.  [locks] is the array built so far; [push] appends. *)
Fixpoint lockLoop (d : Difficulty) (random : nat -> Q) (cs : list Clue)
    (calls : nat) (locks : list Z) : list Z * nat :=
  match cs with
  | [] => (locks, calls)
  | clue :: rest =>
      if isLockable clue then
        if Qltb (random calls) (chance d)
        then lockLoop d random rest (S calls) (locks ++ [clue_id clue])
        else lockLoop d random rest (S calls) locks
      else lockLoop d random rest calls locks
  end.

(** The array [locks] of [startGame] for the generated case. *)
Definition computeLocks (d : Difficulty) (random : nat -> Q)
    (cs : list Clue) : list Z :=
  fst (lockLoop d random cs 0%nat []).

(** [startGame] after [generateMystery(difficulty)] resolved with
    [newCase]. *)
Definition startGame_resolved (d : Difficulty) (newCase : MysteryCase)
    (random : nat -> Q) (s : AppState) : AppState * list Effect :=
  (setGameState Playing
    (setMystery (Some newCase)
      (setLockedClues (fun _ => computeLocks d random (clues newCase)) s)),
   []).

(** [startGame] after [generateMystery(difficulty)] rejected. *)
Definition startGame_rejected (s : AppState) : AppState * list Effect :=
  (setGameState Idle
    (setError (Some "Failed to contact headquarters. The AI service might be busy or configured incorrectly.") s),
   [ConsoleError]).

(** ** The clue gate *)

Definition revealClue (clueId : Z) (s : AppState) : AppState :=
  if negb (includes (revealedClues s) clueId)
  then setRevealedClues (fun prev => prev ++ [clueId]) s
  else s.

Definition handleClueClick (clueId : Z) (s : AppState)
    : AppState * list Effect :=
  if includes (lockedClues s) clueId
  then (setActivePuzzleClueId (Some clueId) s, [])
  else (revealClue clueId s, []).

Definition handlePuzzleSuccess (s : AppState) : AppState * list Effect :=
  match activePuzzleClueId s with
  | Some active =>
      (setActivePuzzleClueId None
        (revealClue active
          (setLockedClues (filter (fun id => negb (Z.eqb id active))) s)),
       [])
  | None => (s, [])
  end.

(** [onClose] of the puzzle modal and of the puzzle itself. *)
Definition closePuzzle (s : AppState) : AppState * list Effect :=
  (setActivePuzzleClueId None s, []).

(** ** Hints ([fetchHint]) *)

Definition fetchHint (s : AppState) : AppState * list Effect :=
  match mystery s with
  | None => (s, [])
  | Some m => (setIsHintLoading true s, [CallGetHint m (revealedClues s)])
  end.

Definition fetchHint_resolved (hintText : string) (s : AppState)
    : AppState * list Effect :=
  (setIsHintLoading false (setHint (Some hintText) s), []).

Definition fetchHint_rejected (s : AppState) : AppState * list Effect :=
  (setIsHintLoading false
     (setHint (Some "The connection is fuzzy. I can't get a hint right now.") s),
   []).

(** ** Solving *)

(** The reward computed by the [switch] on [mystery.difficulty]. *)
Definition xp (d : Difficulty) : Z :=
  match d with
  | Easy => 50
  | Medium => 100
  | Hard => 200
  end.

(** [submitSolution] up to its [await]. *)
Definition submitSolution (s : AppState) : AppState * list Effect :=
  if negb (truthy (selectedOption s)) || negb (isSome (mystery s))
  then (s, [])
  else
    match mystery s with
    | Some m =>
        if strictEq (selectedOption s) (correctOptionId m) then
          (setXpGained (xp (difficulty m))
            (setIsCelebrating true (setGameState Playing s)),
           [CallAddXp (xp (difficulty m))])
        else (setGameState Failure s, [])
    | None => (s, [])
    end.

(** [submitSolution] after [authService.addXp(xp)] resolved with
    [{ user, leveledUp }]. *)
Definition submitSolution_resolved (resultUser : User) (leveledUp : bool)
    (s : AppState) : AppState * list Effect :=
  (setUser (Some resultUser) s,
   if leveledUp then [SetTimeoutShowLevelUp 3500] else []).

(** [submitSolution] after [authService.addXp(xp)] rejected. *)
Definition submitSolution_rejected (s : AppState) : AppState * list Effect :=
  (s, [ConsoleError]).

Definition handleCelebrationComplete (s : AppState) : AppState * list Effect :=
  (setGameState Success (setIsCelebrating false s), []).

Definition resetGame (s : AppState) : AppState * list Effect :=
  (setMystery None (setGameState Idle s), []).

(** *** Handlers written inline in the JSX *)

(** [onClick] of the Solve Case button: [setGameState(GameState.Solving)]. *)
Definition solveCase (s : AppState) : AppState * list Effect :=
  (setGameState Solving s, []).

(** [onClose] of the suspect line-up: [setGameState(GameState.Playing)]. *)
Definition closeSolving (s : AppState) : AppState * list Effect :=
  (setGameState Playing s, []).

(** [onClick] of a suspect: [setSelectedOption(option.id)]. *)
Definition selectOption (optionId : string) (s : AppState)
    : AppState * list Effect :=
  (setSelectedOption (Some optionId) s, []).

(** Re-examine Evidence, and [onClose] of the failure modal:
    [setGameState(GameState.Playing)]. *)
Definition reExamine (s : AppState) : AppState * list Effect :=
  (setGameState Playing s, []).

(** I Give Up (Reveal Answer): [setGameState(GameState.Success)]. *)
Definition revealAnswer (s : AppState) : AppState * list Effect :=
  (setGameState Success s, []).

(** Next Case: [startGame(selectedDifficulty)]. *)
Definition nextCase (r : Q) (s : AppState) : AppState * list Effect :=
  startGame (selectedDifficulty s) r s.

(** Back to Dashboard on the error screen: [setGameState(GameState.Idle)]. *)
Definition backToDashboard (s : AppState) : AppState * list Effect :=
  (setGameState Idle s, []).

(** The timer set by [submitSolution] fires: [setShowLevelUp(true)]. *)
Definition levelUpTimer (s : AppState) : AppState * list Effect :=
  (setShowLevelUp true s, []).

(** Accept Promotion, and [onClose] of the level-up modal. *)
Definition closeLevelUp (s : AppState) : AppState * list Effect :=
  (setShowLevelUp false s, []).

(** The interval that cycles the loading message. *)
Definition loadingTick (r : Q) (s : AppState) : AppState * list Effect :=
  (setLoadingMsg (randomLoadingMessage r) s, []).

(** ** The component as a transition system *)

Inductive Event :=
| EInitialAuthCheck (currentUser : option User) (hasApiKey : bool)
| ELogin (loggedInUser : User)
| ELogout
| EStartGame (d : Difficulty) (r : Q)
| EGenerateResolved (d : Difficulty) (newCase : MysteryCase)
                    (random : nat -> Q)
| EGenerateRejected
| EClueClick (clueId : Z)
| EPuzzleSuccess
| EPuzzleClose
| EFetchHint
| EHintResolved (hintText : string)
| EHintRejected
| ESolveCase
| ECloseSolving
| ESelectOption (optionId : string)
| ESubmitSolution
| EAddXpResolved (resultUser : User) (leveledUp : bool)
| EAddXpRejected
| ELevelUpTimer
| ECelebrationComplete
| ENextCase (r : Q)
| EResetGame
| EReExamine
| ERevealAnswer
| ECloseLevelUp
| EBackToDashboard
| ELoadingTick (r : Q).

Definition step (e : Event) (s : AppState) : AppState * list Effect :=
  match e with
  | EInitialAuthCheck currentUser hasApiKey =>
      initialAuthCheck currentUser hasApiKey s
  | ELogin u => handleLogin u s
  | ELogout => handleLogout s
  | EStartGame d r => startGame d r s
  | EGenerateResolved d newCase random =>
      startGame_resolved d newCase random s
  | EGenerateRejected => startGame_rejected s
  | EClueClick clueId => handleClueClick clueId s
  | EPuzzleSuccess => handlePuzzleSuccess s
  | EPuzzleClose => closePuzzle s
  | EFetchHint => fetchHint s
  | EHintResolved hintText => fetchHint_resolved hintText s
  | EHintRejected => fetchHint_rejected s
  | ESolveCase => solveCase s
  | ECloseSolving => closeSolving s
  | ESelectOption optionId => selectOption optionId s
  | ESubmitSolution => submitSolution s
  | EAddXpResolved resultUser leveledUp =>
      submitSolution_resolved resultUser leveledUp s
  | EAddXpRejected => submitSolution_rejected s
  | ELevelUpTimer => levelUpTimer s
  | ECelebrationComplete => handleCelebrationComplete s
  | ENextCase r => nextCase r s
  | EResetGame => resetGame s
  | EReExamine => reExamine s
  | ERevealAnswer => revealAnswer s
  | ECloseLevelUp => closeLevelUp s
  | EBackToDashboard => backToDashboard s
  | ELoadingTick r => loadingTick r s
  end.

(** The events of a list one after the other; the calls issued are collected
    in order. *)
Fixpoint run (es : list Event) (s : AppState) : AppState * list Effect :=
  match es with
  | [] => (s, [])
  | e :: rest =>
      let (s1, out1) := step e s in
      let (s2, out2) := run rest s1 in
      (s2, out1 ++ out2)
  end.

(** *** What the render makes available

    [App] returns the error screen instead of the main view when
    [error && !mystery && gameState !== GameState.Idle], and the login form
    when [gameState === GameState.Auth]. *)
Definition showsErrorScreen (s : AppState) : bool :=
  truthy (error s) && negb (isSome (mystery s))
  && negb (GameState_eqb (gameState s) Idle).

(** The case board is rendered under
    [(Playing || Solving || Success || Failure) && mystery]. *)
Definition showsCaseBoard (s : AppState) : bool :=
  (GameState_eqb (gameState s) Playing
   || GameState_eqb (gameState s) Solving
   || GameState_eqb (gameState s) Success
   || GameState_eqb (gameState s) Failure)
  && isSome (mystery s).

(** The Solve Case button sits in the case board, is rendered under
    [gameState === GameState.Playing], and carries
    [disabled={revealedClues.length < 1}]; a disabled button does not run
    its [onClick]. *)
Definition solveCaseEnabled (s : AppState) : bool :=
  negb (GameState_eqb (gameState s) Auth)
  && negb (showsErrorScreen s)
  && showsCaseBoard s
  && GameState_eqb (gameState s) Playing
  && negb (Nat.ltb (List.length (revealedClues s)) 1).

(** The Confirm Indictment button carries [disabled={!selectedOption}];
    its [onClick] is [submitSolution], which has no other caller. *)
Definition confirmDisabled (s : AppState) : bool :=
  negb (truthy (selectedOption s)).

(** The solve event needs its button.  No other event is restricted: the
    remaining controls live in components ([Modal], [Auth], [PuzzleGame],
    [Celebration]) whose visibility rules are outside [App.tsx], and the
    completions of the asynchronous calls may arrive at any time.  Every
    state the application can reach is therefore [reachable]. *)
Definition enabled (e : Event) (s : AppState) : bool :=
  match e with
  | ESolveCase => solveCaseEnabled s
  | _ => true
  end.

Inductive reachable : AppState -> Prop :=
| reachable_initial : reachable initialState
| reachable_step (e : Event) (s : AppState) :
    reachable s -> enabled e s = true -> reachable (fst (step e s)).

(** *** The clue gate as a sub-system *)

Inductive GateOp :=
| ClueClick (clueId : Z)   (* handleClueClick(clue.id) *)
| PuzzleSuccess            (* handlePuzzleSuccess() *)
| PuzzleClose.             (* setActivePuzzleClueId(null) *)

Definition gateEvent (op : GateOp) : Event :=
  match op with
  | ClueClick clueId => EClueClick clueId
  | PuzzleSuccess => EPuzzleSuccess
  | PuzzleClose => EPuzzleClose
  end.

(** The state a new case starts in: [startGame] ran in [s0] and the
    generation resolved with [newCase]. *)
Definition caseStarted (s0 : AppState) (d : Difficulty) (r : Q)
    (newCase : MysteryCase) (random : nat -> Q) : AppState :=
  fst (startGame_resolved d newCase random (fst (startGame d r s0))).

(** [revealed ∩ locked = ∅] on the two arrays. *)
Definition disjoint (revealed locked : list Z) : Prop :=
  forall id, In id revealed -> ~ In id locked.

Definition disjointb (revealed locked : list Z) : bool :=
  forallb (fun id => negb (includes locked id)) revealed.

(** The amount of the last [addXp] call in a list of calls, [default] when
    there is none. *)
Fixpoint lastAddXp (out : list Effect) (default : Z) : Z :=
  match out with
  | [] => default
  | CallAddXp amount :: rest => lastAddXp rest amount
  | _ :: rest => lastAddXp rest default
  end.

(** The number of draws [j / n], [j = 0 .. n-1], that fall under the
    threshold of difficulty [d]: the draws of a uniform source with [n]
    equally likely values that lock an eligible clue. *)
Definition lockingDraws (d : Difficulty) (n : nat) : nat :=
  List.length
    (filter (fun j => Qltb (Z.of_nat j # Pos.of_nat n) (chance d)) (seq 0 n)).

(** ** Auxiliary definitions *)

(** The decisions of the loop, read off the eligible clues paired with the
    draws they consume. *)
Definition picks (d : Difficulty) (random : nat -> Q) (calls : nat)
    (cs : list Clue) : list Z :=
  let eligible := filter isLockable cs in
  map clue_id
    (map fst
      (filter (fun cr => Qltb (snd cr) (chance d))
        (combine eligible
                 (map random (seq calls (List.length eligible)))))).

(** The invariant of the solve guard. *)
Definition solvingHasClue (s : AppState) : Prop :=
  gameState s = Solving -> revealedClues s <> [].

(** Whether every event of the list is enabled when its turn comes. *)
Fixpoint runEnabled (es : list Event) (s : AppState) : bool :=
  match es with
  | [] => true
  | e :: rest => enabled e s && runEnabled rest (fst (step e s))
  end.

(** ** Sample data *)

Definition sampleClues : list Clue := [
  {| clue_id := 1; clue_text := "Mud on the carpet";
     clue_type := Observation; clue_isRedHerring := false |};
  {| clue_id := 2; clue_text := "The butler heard a crash";
     clue_type := Testimony; clue_isRedHerring := false |};
  {| clue_id := 3; clue_text := "A broken vase";
     clue_type := Physical; clue_isRedHerring := true |};
  {| clue_id := 4; clue_text := "The house was locked at nine";
     clue_type := Context; clue_isRedHerring := false |}
].

Definition sampleCase : MysteryCase := {|
  title := "The Broken Vase";
  scenario := "A vase was found broken in the hall.";
  difficulty := Hard;
  clues := sampleClues;
  options := [ {| option_id := "opt1"; option_text := "The butler" |};
               {| option_id := "opt2"; option_text := "The cat" |} ];
  correctOptionId := "opt2";
  explanation := "The cat knocked it over."
|}.

(** A source of draws that alternates between [0.5] and [0.75]. *)
Definition sampleRandom (n : nat) : Q :=
  if Nat.even n then 1 # 2 else 3 # 4.

(** The sample case just started at difficulty [Hard]. *)
Definition samplePlaying : AppState :=
  caseStarted initialState Hard (1 # 4) sampleCase sampleRandom.

(** A puzzle left open across a case start: the puzzle of the locked
    clue 2 is opened, then the case is started again at [Medium], where the
    same draws lock nothing.  Clue 2 is still the active puzzle clue and is
    no longer locked. *)
Definition sampleStalePuzzle : AppState :=
  caseStarted (fst (handleClueClick 2 samplePlaying))
              Medium (1 # 4) sampleCase sampleRandom.

(** The sample case in the suspect line-up, one clue revealed, with the
    given suspect selected. *)
Definition sampleSolving (optionId : string) : AppState :=
  fst (run [EClueClick 1; ESolveCase; ESelectOption optionId] samplePlaying).

(** A case whose culprit is the suspect with the empty identifier. *)
Definition blankCulpritCase : MysteryCase := {|
  title := "The Nameless One";
  scenario := "Nobody knows who did it.";
  difficulty := Easy;
  clues := sampleClues;
  options := [ {| option_id := EmptyString; option_text := "The stranger" |};
               {| option_id := "opt2"; option_text := "The cat" |} ];
  correctOptionId := EmptyString;
  explanation := "It was the stranger."
|}.

(** The same suspects, with the cat as the culprit. *)
Definition blankSuspectCase : MysteryCase := {|
  title := "The Nameless One";
  scenario := "Nobody knows who did it.";
  difficulty := Easy;
  clues := sampleClues;
  options := [ {| option_id := EmptyString; option_text := "The stranger" |};
               {| option_id := "opt2"; option_text := "The cat" |} ];
  correctOptionId := "opt2";
  explanation := "It was the cat."
|}.

(** The line-up of [c] with the stranger selected. *)
Definition strangerSelected (c : MysteryCase) : AppState :=
  fst (run [EClueClick 1; ESolveCase; ESelectOption EmptyString]
           (caseStarted initialState Easy (1 # 4) c sampleRandom)).

(** A session that reaches the suspect line-up of the sample case. *)
Definition sampleSession : list Event := [
  EInitialAuthCheck None true;
  ELogin {| username := "holmes"; level := 1; currentXP := 0;
            xpToNextLevel := 100; casesSolved := 0; totalXp := 0 |};
  EStartGame Hard (1 # 4);
  EGenerateResolved Hard sampleCase sampleRandom;
  EClueClick 1;
  ESolveCase
].

Definition sampleUser : User :=
  {| username := "watson"; level := 1; currentXP := 0;
     xpToNextLevel := 100; casesSolved := 0; totalXp := 0 |}.

(** Two generations in flight.  A game is started at [Hard]; while it
    loads, the user logs out, logs in again and starts a game at [Easy],
    whose case arrives first and locks nothing; clue 2 is revealed; then the
    case of the first request arrives, and its lock computation locks
    clue 2. *)
Definition lateGenerationSession : list Event := [
  EInitialAuthCheck (Some sampleUser) true;
  EStartGame Hard (1 # 4);
  ELogout;
  ELogin sampleUser;
  EStartGame Easy (1 # 4);
  EGenerateResolved Easy blankSuspectCase sampleRandom;
  EClueClick 2;
  EGenerateResolved Hard sampleCase sampleRandom
].

(** A case with two clues. *)
Definition shortCase : MysteryCase := {|
  title := "The Missing Key";
  scenario := "A key is gone.";
  difficulty := Easy;
  clues := [ {| clue_id := 1; clue_text := "An open drawer";
                clue_type := Observation; clue_isRedHerring := false |};
             {| clue_id := 2; clue_text := "The maid saw nothing";
                clue_type := Testimony; clue_isRedHerring := false |} ];
  options := [ {| option_id := "opt1"; option_text := "The maid" |};
               {| option_id := "opt2"; option_text := "The gardener" |} ];
  correctOptionId := "opt1";
  explanation := "The maid kept it."
|}.

(** Two generations in flight, the late one bringing the short case after
    three clues of the sample case were revealed. *)
Definition lateShortCaseSession : list Event := [
  EInitialAuthCheck (Some sampleUser) true;
  EStartGame Easy (1 # 4);
  ELogout;
  ELogin sampleUser;
  EStartGame Easy (1 # 4);
  EGenerateResolved Easy sampleCase sampleRandom;
  EClueClick 1; EClueClick 3; EClueClick 4;
  EGenerateResolved Easy shortCase sampleRandom
].

(** A session that fails the sample case. *)
Definition sampleFailedSession : list Event :=
  sampleSession ++ [ESelectOption "opt1"; ESubmitSolution].

(** A session: a Hard case solved, the next case failed, the answer
    revealed. *)
Definition sampleRevealSession : list Event :=
  sampleSession ++ [
    ESelectOption "opt2"; ESubmitSolution; ECelebrationComplete;
    ENextCase (1 # 8);
    EGenerateResolved Hard sampleCase sampleRandom;
    EClueClick 4; ESolveCase; ESelectOption "opt1"; ESubmitSolution;
    ERevealAnswer
  ].

(** ** What the render shows *)

(** The top-level choice of the render: the login form under
    [gameState === GameState.Auth], else the error screen under
    [error && !mystery && gameState !== GameState.Idle], else the main
    view. *)
Inductive Screen := AuthScreen | ErrorScreen | MainScreen.

Definition screen (s : AppState) : Screen :=
  if GameState_eqb (gameState s) Auth then AuthScreen
  else if showsErrorScreen s then ErrorScreen
  else MainScreen.

(** The three faces of a clue card:
    [isRevealed ? (paper) : isLocked ? (sealed) : (hidden)] with
    [isRevealed = revealedClues.includes(clue.id)] and
    [isLocked = lockedClues.includes(clue.id)]. *)
Inductive ClueCard := RevealedCard | SealedCard | HiddenCard.

Definition clueCard (s : AppState) (clue : Clue) : ClueCard :=
  if includes (revealedClues s) (clue_id clue) then RevealedCard
  else if includes (lockedClues s) (clue_id clue) then SealedCard
  else HiddenCard.

(** [disabled={isRevealed || gameState !== GameState.Playing}] on the
    button of a clue card. *)
Definition clueButtonDisabled (s : AppState) (clue : Clue) : bool :=
  includes (revealedClues s) (clue_id clue)
  || negb (GameState_eqb (gameState s) Playing).

(** The counter [{revealedClues.length} / {mystery.clues.length}] of the
    evidence board. *)
Definition cluesFound (s : AppState) : option (nat * nat) :=
  match mystery s with
  | Some m => Some (List.length (revealedClues s), List.length (clues m))
  | None => None
  end.

(** The hint button sits in the case board, is rendered under
    [gameState === GameState.Playing] and [!hint], and carries
    [disabled={revealedClues.length === 0}]. *)
Definition hintButtonEnabled (s : AppState) : bool :=
  negb (GameState_eqb (gameState s) Auth)
  && negb (showsErrorScreen s)
  && showsCaseBoard s
  && GameState_eqb (gameState s) Playing
  && negb (truthy (hint s))
  && negb (Nat.eqb (List.length (revealedClues s)) 0).

(** The string values of the [ClueType] enum. *)
Definition ClueType_value (t : ClueType) : string :=
  match t with
  | Observation => "Observation"
  | Testimony => "Testimony"
  | Physical => "Physical Object"
  | Context => "Context"
  end.

Inductive Icon := EyeIcon | MessageSquareIcon | SearchIcon | ArchiveIcon.

(** [getClueIcon(type: string)]: a [switch] on the string with a
    [default]. *)
Definition getClueIcon (type : string) : Icon :=
  if String.eqb type "Observation" then EyeIcon
  else if String.eqb type "Testimony" then MessageSquareIcon
  else if String.eqb type "Physical Object" then SearchIcon
  else ArchiveIcon.

(** The XP REWARD label of a difficulty card on the dashboard:
    [diff === Difficulty.Easy ? "50" : diff === Difficulty.Medium ? "100" : "200"]. *)
Definition rewardLabel (diff : Difficulty) : string :=
  if Difficulty_eqb diff Easy then "50"
  else if Difficulty_eqb diff Medium then "100"
  else "200".

(** Gate operations other than a puzzle success. *)
Definition noSuccess (op : GateOp) : bool :=
  match op with
  | PuzzleSuccess => false
  | _ => true
  end.

(** Every locked id is the id of a lockable clue of the current case. *)
Definition locksFromCase (s : AppState) : Prop :=
  forall m, mystery s = Some m ->
  forall id, In id (lockedClues s) ->
  exists c, In c (clues m) /\ clue_id c = id /\ isLockable c = true.

(** * Properties *)

(** ** Sample runs *)

Example samplePlaying_locks : lockedClues samplePlaying = [2].
Proof. reflexivity. Qed.

Example samplePlaying_medium_locks :
  computeLocks Medium sampleRandom sampleClues = [].
Proof. reflexivity. Qed.

Example sample_click_locked :
  activePuzzleClueId (fst (handleClueClick 2 samplePlaying)) = Some 2
  /\ revealedClues (fst (handleClueClick 2 samplePlaying)) = [].
Proof. split; reflexivity. Qed.

Example sample_gate_run_disjoint :
  let s := fst (run (map gateEvent [ClueClick 1; ClueClick 2; ClueClick 3])
                    samplePlaying) in
  revealedClues s = [1; 3] /\ lockedClues s = [2]
  /\ activePuzzleClueId s = Some 2
  /\ disjointb (revealedClues s) (lockedClues s) = true.
Proof. repeat split; reflexivity. Qed.

Example sample_gate_run :
  let s := fst (run (map gateEvent
                       [ClueClick 1; ClueClick 2; PuzzleSuccess; ClueClick 1])
                    samplePlaying) in
  revealedClues s = [1; 2] /\ lockedClues s = [] /\ activePuzzleClueId s = None.
Proof. repeat split; reflexivity. Qed.

(** ** Arrays as sets *)

Lemma includes_In (arr : list Z) (x : Z) :
  includes arr x = true <-> In x arr.
Proof.
  unfold includes. rewrite existsb_exists. split.
  - intros [y [Hy Heq]]. apply Z.eqb_eq in Heq. now subst.
  - intros H. exists x. split; [assumption | apply Z.eqb_refl].
Qed.

Lemma includes_not_In (arr : list Z) (x : Z) :
  includes arr x = false <-> ~ In x arr.
Proof.
  rewrite <- includes_In. destruct (includes arr x); split; congruence.
Qed.

Lemma disjointb_disjoint (revealed locked : list Z) :
  disjointb revealed locked = true <-> disjoint revealed locked.
Proof.
  unfold disjointb, disjoint. rewrite forallb_forall. split.
  - intros H id Hin. specialize (H id Hin).
    apply negb_true_iff in H. now apply includes_not_In.
  - intros H id Hin. apply negb_true_iff, includes_not_In. now apply H.
Qed.

Lemma In_filter_neq (a : Z) (xs : list Z) (x : Z) :
  In x (filter (fun id => negb (Z.eqb id a)) xs) <-> In x xs /\ x <> a.
Proof.
  rewrite filter_In, negb_true_iff, Z.eqb_neq. tauto.
Qed.

Lemma filter_neq_absent (a : Z) (xs : list Z) :
  ~ In a xs -> filter (fun id => negb (Z.eqb id a)) xs = xs.
Proof.
  induction xs as [|x xs IH]; simpl; intros H; [reflexivity|].
  destruct (Z.eqb_spec x a) as [->|Hne]; simpl.
  - exfalso. apply H. now left.
  - f_equal. apply IH. intros Hin. apply H. now right.
Qed.

(** ** [revealClue] *)

Lemma revealClue_locked (clueId : Z) (s : AppState) :
  lockedClues (revealClue clueId s) = lockedClues s.
Proof. unfold revealClue. now destruct (includes (revealedClues s) clueId). Qed.

Lemma revealClue_active (clueId : Z) (s : AppState) :
  activePuzzleClueId (revealClue clueId s) = activePuzzleClueId s.
Proof. unfold revealClue. now destruct (includes (revealedClues s) clueId). Qed.

Lemma revealClue_revealed (clueId : Z) (s : AppState) :
  revealedClues (revealClue clueId s)
  = if includes (revealedClues s) clueId
    then revealedClues s
    else revealedClues s ++ [clueId].
Proof. unfold revealClue. now destruct (includes (revealedClues s) clueId). Qed.

Lemma revealClue_In (clueId : Z) (s : AppState) (x : Z) :
  In x (revealedClues (revealClue clueId s))
  <-> In x (revealedClues s) \/ x = clueId.
Proof.
  rewrite revealClue_revealed.
  destruct (includes (revealedClues s) clueId) eqn:E.
  - apply includes_In in E. split; [tauto|]. intros [H| ->]; assumption.
  - rewrite in_app_iff. simpl. intuition congruence.
Qed.

(** ** The gate keeps the two arrays disjoint *)

Lemma handleClueClick_disjoint (clueId : Z) (s : AppState) :
  disjoint (revealedClues s) (lockedClues s) ->
  disjoint (revealedClues (fst (handleClueClick clueId s)))
           (lockedClues (fst (handleClueClick clueId s))).
Proof.
  intros H. unfold handleClueClick.
  destruct (includes (lockedClues s) clueId) eqn:E; simpl.
  - exact H.
  - intros x Hx. rewrite revealClue_locked.
    apply revealClue_In in Hx. destruct Hx as [Hx| ->].
    + now apply H.
    + now apply includes_not_In.
Qed.

Lemma handlePuzzleSuccess_disjoint (s : AppState) :
  disjoint (revealedClues s) (lockedClues s) ->
  disjoint (revealedClues (fst (handlePuzzleSuccess s)))
           (lockedClues (fst (handlePuzzleSuccess s))).
Proof.
  intros H. unfold handlePuzzleSuccess.
  destruct (activePuzzleClueId s) as [active|]; simpl; [|exact H].
  intros x Hx. rewrite revealClue_locked. simpl.
  rewrite In_filter_neq. apply revealClue_In in Hx. simpl in Hx.
  destruct Hx as [Hx| ->].
  - intros [Hl _]. exact (H x Hx Hl).
  - intros [_ Hne]. now apply Hne.
Qed.

Lemma gate_step_disjoint (op : GateOp) (s : AppState) :
  disjoint (revealedClues s) (lockedClues s) ->
  disjoint (revealedClues (fst (step (gateEvent op) s)))
           (lockedClues (fst (step (gateEvent op) s))).
Proof.
  destruct op; simpl step.
  - apply handleClueClick_disjoint.
  - apply handlePuzzleSuccess_disjoint.
  - intros H. exact H.
Qed.

Lemma run_cons (e : Event) (es : list Event) (s : AppState) :
  fst (run (e :: es) s) = fst (run es (fst (step e s))).
Proof.
  simpl. destruct (step e s) as [s1 out1]. simpl.
  now destruct (run es s1).
Qed.

Lemma run_app (es1 es2 : list Event) (s : AppState) :
  run (es1 ++ es2) s
  = (fst (run es2 (fst (run es1 s))),
     snd (run es1 s) ++ snd (run es2 (fst (run es1 s)))).
Proof.
  revert s. induction es1 as [|e es1 IH]; intros s; simpl.
  - now destruct (run es2 s).
  - destruct (step e s) as [s1 out1]. rewrite IH.
    destruct (run es1 s1) as [s2 out2]. simpl.
    now rewrite app_assoc.
Qed.

Lemma gate_run_disjoint (ops : list GateOp) (s : AppState) :
  disjoint (revealedClues s) (lockedClues s) ->
  disjoint (revealedClues (fst (run (map gateEvent ops) s)))
           (lockedClues (fst (run (map gateEvent ops) s))).
Proof.
  revert s. induction ops as [|op ops IH]; intros s H.
  - exact H.
  - change (map gateEvent (op :: ops))
      with (gateEvent op :: map gateEvent ops).
    rewrite run_cons. apply IH. now apply gate_step_disjoint.
Qed.

Lemma caseStarted_revealed s0 d r newCase random :
  revealedClues (caseStarted s0 d r newCase random) = [].
Proof. reflexivity. Qed.

Lemma caseStarted_locked s0 d r newCase random :
  lockedClues (caseStarted s0 d r newCase random)
  = computeLocks d random (clues newCase).
Proof. reflexivity. Qed.

(** From a case start with nothing in between, the gate keeps the two
    arrays disjoint. *)
Lemma gate_disjoint_from_case_start :
  forall (s0 : AppState) (d : Difficulty) (r : Q) (newCase : MysteryCase)
         (random : nat -> Q) (ops : list GateOp),
    let s := fst (run (map gateEvent ops)
                      (caseStarted s0 d r newCase random)) in
    disjoint (revealedClues s) (lockedClues s).
Proof.
  intros s0 d r newCase random ops. cbv zeta.
  apply gate_run_disjoint.
  rewrite caseStarted_revealed. intros id [].
Qed.

(** ** Puzzle success for a clue that is not locked *)

(** C2, as stated, fails: with clue 2 as the active puzzle clue and not in
    the locked array, [handlePuzzleSuccess] adds 2 to the revealed array. *)
Lemma puzzle_success_unlocked_reveals :
  activePuzzleClueId sampleStalePuzzle = Some 2
  /\ lockedClues sampleStalePuzzle = []
  /\ ~ In 2 (lockedClues sampleStalePuzzle)
  /\ revealedClues sampleStalePuzzle = []
  /\ revealedClues (fst (handlePuzzleSuccess sampleStalePuzzle)) = [2]
  /\ revealedClues (fst (handlePuzzleSuccess sampleStalePuzzle))
     <> revealedClues sampleStalePuzzle.
Proof.
  repeat split; try reflexivity.
  - intros [].
  - discriminate.
Qed.

(** C2, amended.  When the active puzzle clue is not in the locked array,
    [handlePuzzleSuccess] leaves the locked array as it is, issues no call
    and clears the active clue; the revealed array is unchanged when the
    clue is already revealed, and otherwise gets the clue appended. *)
Theorem puzzle_success_unlocked :
  forall (s : AppState) (clueId : Z),
    activePuzzleClueId s = Some clueId ->
    ~ In clueId (lockedClues s) ->
    let s' := fst (handlePuzzleSuccess s) in
    lockedClues s' = lockedClues s
    /\ revealedClues s'
       = (if includes (revealedClues s) clueId
          then revealedClues s
          else revealedClues s ++ [clueId])
    /\ (In clueId (revealedClues s) -> revealedClues s' = revealedClues s)
    /\ activePuzzleClueId s' = None
    /\ snd (handlePuzzleSuccess s) = [].
Proof.
  intros s clueId Hactive Hfree. cbv zeta.
  unfold handlePuzzleSuccess. rewrite Hactive. simpl.
  rewrite revealClue_locked, revealClue_revealed. simpl.
  repeat split.
  - now apply filter_neq_absent.
  - intros Hin. apply includes_In in Hin. now rewrite Hin.
Qed.

Lemma puzzle_success_unlocked_witness :
  let s' := fst (handlePuzzleSuccess sampleStalePuzzle) in
  lockedClues s' = lockedClues sampleStalePuzzle
  /\ revealedClues s'
     = (if includes (revealedClues sampleStalePuzzle) 2
        then revealedClues sampleStalePuzzle
        else revealedClues sampleStalePuzzle ++ [2])
  /\ (In 2 (revealedClues sampleStalePuzzle) ->
      revealedClues s' = revealedClues sampleStalePuzzle)
  /\ activePuzzleClueId s' = None
  /\ snd (handlePuzzleSuccess sampleStalePuzzle) = [].
Proof.
  apply (puzzle_success_unlocked sampleStalePuzzle 2).
  - reflexivity.
  - intros [].
Defined.

(** The already-revealed case: a second success for clue 1 changes
    neither array. *)
Example puzzle_success_already_revealed :
  let s := setActivePuzzleClueId (Some 1)
             (fst (handleClueClick 1 samplePlaying)) in
  revealedClues s = [1] /\ lockedClues s = [2]
  /\ revealedClues (fst (handlePuzzleSuccess s)) = [1]
  /\ lockedClues (fst (handlePuzzleSuccess s)) = [2].
Proof. repeat split; reflexivity. Qed.

(** ** The initial locks *)

Lemma isLockable_type (c : Clue) :
  isLockable c = true <-> clue_type c = Physical \/ clue_type c = Testimony.
Proof.
  unfold isLockable. destruct (clue_type c); simpl; split;
    intros H; try discriminate; try reflexivity;
    try (destruct H; discriminate); auto.
Qed.

Section InitialLocks.

Variable d : Difficulty.
Variable random : nat -> Q.

Lemma lockLoop_picks (cs : list Clue) :
  forall (calls : nat) (locks : list Z),
    lockLoop d random cs calls locks
    = (locks ++ picks d random calls cs,
       (calls + List.length (filter isLockable cs))%nat).
Proof.
  unfold picks.
  induction cs as [|clue rest IH]; intros calls locks; simpl.
  - now rewrite app_nil_r, Nat.add_0_r.
  - destruct (isLockable clue) eqn:El; simpl.
    + destruct (Qltb (random calls) (chance d)) eqn:Er; simpl;
        rewrite IH; f_equal; try lia.
      now rewrite <- app_assoc.
    + apply IH.
Qed.

Lemma computeLocks_picks (cs : list Clue) :
  computeLocks d random cs = picks d random 0 cs.
Proof. unfold computeLocks. now rewrite lockLoop_picks. Qed.

Lemma picks_from_eligible (calls : nat) (cs : list Clue) (id : Z) :
  In id (picks d random calls cs) ->
  exists c, In c cs /\ clue_id c = id /\ isLockable c = true.
Proof.
  unfold picks. rewrite map_map, in_map_iff.
  intros [[c q] [Hid Hin]]. simpl in Hid.
  apply filter_In in Hin. destruct Hin as [Hin _].
  apply in_combine_l in Hin. apply filter_In in Hin.
  exists c. tauto.
Qed.

(** The number of draws consumed is the number of eligible clues. *)
Lemma lockLoop_calls (cs : list Clue) (calls : nat) (locks : list Z) :
  snd (lockLoop d random cs calls locks)
  = (calls + List.length (filter isLockable cs))%nat.
Proof. now rewrite lockLoop_picks. Qed.

End InitialLocks.



(** *** Counting the locking draws *)





Example lockingDraws_hard_16 : lockingDraws Hard 16 = 10%nat.
Proof. vm_compute. reflexivity. Qed.

Example lockingDraws_easy_16 : lockingDraws Easy 16 = 7%nat.
Proof. vm_compute. reflexivity. Qed.

(** A draw equal to the double 0.6 itself does not lock at Hard: the test
    is a strict comparison of doubles. *)
Example draw_at_threshold :
  computeLocks Hard (fun _ => 5404319552844595 # 9007199254740992) sampleClues
  = [].
Proof. vm_compute. reflexivity. Qed.




(** ** Submitting a solution *)

Example sampleSolving_phase : gameState (sampleSolving "opt2") = Solving.
Proof. reflexivity. Qed.

Example sampleSolving_correct :
  let r := submitSolution (sampleSolving "opt2") in
  gameState (fst r) = Playing /\ isCelebrating (fst r) = true
  /\ xpGained (fst r) = 200 /\ snd r = [CallAddXp 200].
Proof. repeat split; reflexivity. Qed.

Example sampleSolving_wrong :
  let r := submitSolution (sampleSolving "opt1") in
  gameState (fst r) = Failure /\ isCelebrating (fst r) = false
  /\ xpGained (fst r) = 0 /\ snd r = [].
Proof. repeat split; reflexivity. Qed.

Lemma truthy_Some (sel : string) :
  truthy (Some sel) = true <-> sel <> EmptyString.
Proof.
  destruct sel; simpl; split; intros H; congruence.
Qed.

Lemma strictEq_Some (sel t : string) :
  strictEq (Some sel) t = true <-> sel = t.
Proof. simpl. apply String.eqb_eq. Qed.

Lemma strictEq_Some_false (sel t : string) :
  sel <> t -> strictEq (Some sel) t = false.
Proof. simpl. apply String.eqb_neq. Qed.

(** The three ways through [submitSolution]. *)
Lemma submitSolution_guarded (s : AppState) :
  truthy (selectedOption s) = false \/ mystery s = None ->
  submitSolution s = (s, []).
Proof.
  unfold submitSolution. intros [H|H]; rewrite H.
  - reflexivity.
  - now rewrite orb_true_r.
Qed.

Lemma submitSolution_correct (s : AppState) (m : MysteryCase) :
  mystery s = Some m ->
  truthy (selectedOption s) = true ->
  strictEq (selectedOption s) (correctOptionId m) = true ->
  submitSolution s
  = (setXpGained (xp (difficulty m))
       (setIsCelebrating true (setGameState Playing s)),
     [CallAddXp (xp (difficulty m))]).
Proof.
  unfold submitSolution. intros Hm Ht He. now rewrite Hm, Ht, He.
Qed.

Lemma submitSolution_incorrect (s : AppState) (m : MysteryCase) :
  mystery s = Some m ->
  truthy (selectedOption s) = true ->
  strictEq (selectedOption s) (correctOptionId m) = false ->
  submitSolution s = (setGameState Failure s, []).
Proof.
  unfold submitSolution. intros Hm Ht He. now rewrite Hm, Ht, He.
Qed.

(** A suspect with the empty identifier cannot be confirmed: with it
    selected the Confirm button is disabled, and [submitSolution], whose
    guard is the same test, would return at once. *)
Example blank_culprit_cannot_be_confirmed :
  let s := strangerSelected blankCulpritCase in
  mystery s = Some blankCulpritCase
  /\ selectedOption s = Some (correctOptionId blankCulpritCase)
  /\ confirmDisabled s = true
  /\ submitSolution s = (s, []).
Proof. repeat split; reflexivity. Qed.

Lemma confirm_enabled_selection (s : AppState) (sel : string) :
  selectedOption s = Some sel ->
  confirmDisabled s = false ->
  sel <> EmptyString /\ truthy (selectedOption s) = true.
Proof.
  unfold confirmDisabled. intros Hsel H. apply negb_false_iff in H.
  split; [|exact H]. rewrite Hsel in H. now apply truthy_Some.
Qed.

(** C4. For an active case and a selected suspect, a submission made
    through the Confirm button (which is enabled) takes the correct branch
    of [submitSolution] exactly when the selected id equals
    [correctOptionId], and the failure branch exactly when it differs.  On
    the correct branch the phase is [Playing] with the celebration running,
    and [Success] once the celebration completes. *)
Theorem submit_evaluates_selection :
  forall (s : AppState) (m : MysteryCase) (sel : string),
    mystery s = Some m ->
    selectedOption s = Some sel ->
    confirmDisabled s = false ->
    (sel = correctOptionId m <->
       submitSolution s
       = (setXpGained (xp (difficulty m))
            (setIsCelebrating true (setGameState Playing s)),
          [CallAddXp (xp (difficulty m))]))
    /\ (sel <> correctOptionId m <->
          submitSolution s = (setGameState Failure s, []))
    /\ (sel = correctOptionId m ->
          let s1 := fst (submitSolution s) in
          let s2 := fst (handleCelebrationComplete s1) in
          gameState s1 = Playing /\ isCelebrating s1 = true
          /\ gameState s2 = Success /\ isCelebrating s2 = false)
    /\ (sel <> correctOptionId m ->
          gameState (fst (submitSolution s)) = Failure).
Proof.
  intros s m sel Hm Hsel Hen.
  destruct (confirm_enabled_selection s sel Hsel Hen) as [Hne Ht].
  assert (Hyes : sel = correctOptionId m ->
            submitSolution s
            = (setXpGained (xp (difficulty m))
                 (setIsCelebrating true (setGameState Playing s)),
               [CallAddXp (xp (difficulty m))])).
  { intros Heq. apply submitSolution_correct; auto.
    rewrite Hsel. now apply strictEq_Some. }
  assert (Hno : sel <> correctOptionId m ->
            submitSolution s = (setGameState Failure s, [])).
  { intros Hd. apply (submitSolution_incorrect s m); auto.
    rewrite Hsel. now apply strictEq_Some_false. }
  split; [|split; [|split]].
  - split; [exact Hyes|].
    intros Hres. destruct (string_dec sel (correctOptionId m)) as [|Hd];
      [assumption|].
    rewrite (Hno Hd) in Hres. discriminate Hres.
  - split; [exact Hno|].
    intros Hres Heq. rewrite (Hyes Heq) in Hres. discriminate Hres.
  - intros Heq. cbv zeta. rewrite (Hyes Heq). simpl. repeat split.
  - intros Hd. now rewrite (Hno Hd).
Qed.

Lemma submit_evaluates_selection_witness :
  let s := sampleSolving "opt2" in
  let s1 := fst (submitSolution s) in
  let s2 := fst (handleCelebrationComplete s1) in
  gameState s1 = Playing /\ isCelebrating s1 = true
  /\ gameState s2 = Success /\ isCelebrating s2 = false.
Proof.
  exact (proj1 (proj2 (proj2
           (submit_evaluates_selection (sampleSolving "opt2") sampleCase
              "opt2" eq_refl eq_refl eq_refl)))
           eq_refl).
Defined.

(** C5. The reward is 50 for Easy, 100 for Medium and 200 for Hard, one
    value for each difficulty; on a correct submission this amount, for the
    difficulty of the case, is the one passed to [addXp], in the only call
    issued, and the one stored in [xpGained]. *)
Theorem reward_by_difficulty :
  (xp Easy = 50 /\ xp Medium = 100 /\ xp Hard = 200)
  /\ (forall d : Difficulty, xp d = 50 \/ xp d = 100 \/ xp d = 200)
  /\ (forall (s : AppState) (m : MysteryCase),
        mystery s = Some m ->
        truthy (selectedOption s) = true ->
        strictEq (selectedOption s) (correctOptionId m) = true ->
        snd (submitSolution s) = [CallAddXp (xp (difficulty m))]
        /\ xpGained (fst (submitSolution s)) = xp (difficulty m)).
Proof.
  split; [now repeat split|]. split.
  - intros d. destruct d; simpl; auto.
  - intros s m Hm Ht He.
    rewrite (submitSolution_correct s m Hm Ht He). now split.
Qed.

Lemma reward_by_difficulty_witness :
  snd (submitSolution (sampleSolving "opt2")) = [CallAddXp 200]
  /\ xpGained (fst (submitSolution (sampleSolving "opt2"))) = 200.
Proof.
  exact (proj2 (proj2 reward_by_difficulty) (sampleSolving "opt2") sampleCase
           eq_refl eq_refl eq_refl).
Defined.

(** The same holds when the culprit is someone else: the selection of
    the suspect with the empty identifier cannot be confirmed. *)
Example blank_suspect_cannot_be_confirmed :
  let s := strangerSelected blankSuspectCase in
  mystery s = Some blankSuspectCase
  /\ selectedOption s = Some EmptyString
  /\ EmptyString <> correctOptionId blankSuspectCase
  /\ confirmDisabled s = true
  /\ submitSolution s = (s, []).
Proof. repeat split; try reflexivity; discriminate. Qed.

(** C6. For an active case and a selected suspect id different from
    [correctOptionId], a submission made through the Confirm button (which
    is enabled) moves the phase to [Failure], issues no call at all (so no
    [addXp]), and leaves the user profile and the displayed reward as they
    were. *)
Theorem submit_wrong_fails_without_xp :
  forall (s : AppState) (m : MysteryCase) (sel : string),
    mystery s = Some m ->
    selectedOption s = Some sel ->
    confirmDisabled s = false ->
    sel <> correctOptionId m ->
    gameState (fst (submitSolution s)) = Failure
    /\ snd (submitSolution s) = []
    /\ (forall amount, ~ In (CallAddXp amount) (snd (submitSolution s)))
    /\ user (fst (submitSolution s)) = user s
    /\ xpGained (fst (submitSolution s)) = xpGained s
    /\ fst (submitSolution s) = setGameState Failure s.
Proof.
  intros s m sel Hm Hsel Hen Hd.
  destruct (confirm_enabled_selection s sel Hsel Hen) as [Hne Ht].
  assert (Hres : submitSolution s = (setGameState Failure s, [])).
  { apply (submitSolution_incorrect s m Hm Ht).
    rewrite Hsel. now apply strictEq_Some_false. }
  rewrite Hres. simpl. repeat split. intros amount [].
Qed.

Lemma submit_wrong_fails_without_xp_witness :
  gameState (fst (submitSolution (sampleSolving "opt1"))) = Failure
  /\ snd (submitSolution (sampleSolving "opt1")) = []
  /\ (forall amount,
        ~ In (CallAddXp amount) (snd (submitSolution (sampleSolving "opt1"))))
  /\ user (fst (submitSolution (sampleSolving "opt1")))
     = user (sampleSolving "opt1")
  /\ xpGained (fst (submitSolution (sampleSolving "opt1")))
     = xpGained (sampleSolving "opt1")
  /\ fst (submitSolution (sampleSolving "opt1"))
     = setGameState Failure (sampleSolving "opt1").
Proof.
  apply (submit_wrong_fails_without_xp (sampleSolving "opt1") sampleCase
           "opt1"); try reflexivity; discriminate.
Defined.

(** ** Reveal answer *)

(** C7. The reveal-answer control sets the phase to [Success] and does
    nothing else: it issues no call, so no [addXp], and the user profile and
    every other state variable keep their values.  A session that stands in
    [Failure] and continues with reveal-answer ends in [Success] with the
    calls it had issued before, and with the same user profile. *)
Theorem reveal_answer_grants_nothing :
  (forall s : AppState,
     gameState (fst (step ERevealAnswer s)) = Success
     /\ snd (step ERevealAnswer s) = []
     /\ (forall amount, ~ In (CallAddXp amount) (snd (step ERevealAnswer s)))
     /\ user (fst (step ERevealAnswer s)) = user s
     /\ fst (step ERevealAnswer s) = setGameState Success s)
  /\ (forall es : list Event,
        let before := run es initialState in
        let after := run (es ++ [ERevealAnswer]) initialState in
        gameState (fst before) = Failure ->
        gameState (fst after) = Success
        /\ snd after = snd before
        /\ user (fst after) = user (fst before)).
Proof.
  split.
  - intros s. simpl. repeat split. intros amount [].
  - intros es. cbv zeta. intros _. rewrite run_app. simpl.
    rewrite app_nil_r. repeat split.
Qed.

Lemma reveal_answer_grants_nothing_witness :
  gameState (fst (run (sampleFailedSession ++ [ERevealAnswer]) initialState))
  = Success
  /\ snd (run (sampleFailedSession ++ [ERevealAnswer]) initialState)
     = snd (run sampleFailedSession initialState)
  /\ user (fst (run (sampleFailedSession ++ [ERevealAnswer]) initialState))
     = user (fst (run sampleFailedSession initialState)).
Proof.
  apply (proj2 reveal_answer_grants_nothing sampleFailedSession).
  reflexivity.
Defined.

Example reveal_answer_after_failure :
  let failed := fst (submitSolution (sampleSolving "opt1")) in
  gameState failed = Failure
  /\ run [ERevealAnswer] failed = (setGameState Success failed, [])
  /\ xpGained (fst (run [ERevealAnswer] failed)) = 0.
Proof. repeat split; reflexivity. Qed.

(** ** The guard of [submitSolution] *)

(** C9. With no suspect selected ([selectedOption] falsy) or no active
    case, [submitSolution] returns at once: the state, and with it the
    phase and all per-case variables, is unchanged and no call is issued. *)
Theorem submit_guard_noop :
  forall s : AppState,
    truthy (selectedOption s) = false \/ mystery s = None ->
    submitSolution s = (s, [])
    /\ gameState (fst (submitSolution s)) = gameState s
    /\ (forall amount, ~ In (CallAddXp amount) (snd (submitSolution s))).
Proof.
  intros s H. rewrite (submitSolution_guarded s H). simpl.
  repeat split. intros amount [].
Qed.

Lemma submit_guard_noop_witness :
  submitSolution samplePlaying = (samplePlaying, [])
  /\ gameState (fst (submitSolution samplePlaying)) = gameState samplePlaying
  /\ (forall amount,
        ~ In (CallAddXp amount) (snd (submitSolution samplePlaying))).
Proof.
  apply (submit_guard_noop samplePlaying). left. reflexivity.
Defined.

Example submit_guard_no_case :
  submitSolution (setSelectedOption (Some "opt1") initialState)
  = (setSelectedOption (Some "opt1") initialState, []).
Proof. reflexivity. Qed.


(** ** Solving needs a revealed clue *)

Lemma app_not_nil {A : Type} (xs : list A) (x : A) : xs ++ [x] <> [].
Proof. destruct xs; discriminate. Qed.

Lemma revealClue_gameState (clueId : Z) (s : AppState) :
  gameState (revealClue clueId s) = gameState s.
Proof. unfold revealClue. now destruct (includes (revealedClues s) clueId). Qed.

Lemma revealClue_keeps_nonempty (clueId : Z) (s : AppState) :
  revealedClues s <> [] -> revealedClues (revealClue clueId s) <> [].
Proof.
  rewrite revealClue_revealed.
  destruct (includes (revealedClues s) clueId); [auto|].
  intros _. apply app_not_nil.
Qed.

Lemma solveCaseEnabled_revealed (s : AppState) :
  solveCaseEnabled s = true -> revealedClues s <> [].
Proof.
  unfold solveCaseEnabled. rewrite !andb_true_iff. intros [_ H] E.
  rewrite E in H. discriminate H.
Qed.

Lemma step_keeps_solvingHasClue (e : Event) (s : AppState) :
  solvingHasClue s -> enabled e s = true -> solvingHasClue (fst (step e s)).
Proof.
  unfold solvingHasClue. intros Hinv Hen.
  destruct e; simpl step; simpl in Hen;
    try (simpl; intros Hg; try discriminate Hg; now auto).
  - (* the mount effect *)
    unfold initialAuthCheck.
    destruct currentUser, hasApiKey; simpl; intros Hg;
      try discriminate Hg; auto.
  - (* a clue is clicked *)
    unfold handleClueClick.
    destruct (includes (lockedClues s) clueId); simpl; [exact Hinv|].
    rewrite revealClue_gameState. intros Hg.
    apply revealClue_keeps_nonempty. auto.
  - (* the puzzle is solved *)
    unfold handlePuzzleSuccess.
    destruct (activePuzzleClueId s) as [active|]; simpl; [|exact Hinv].
    rewrite revealClue_gameState. simpl. intros Hg.
    apply revealClue_keeps_nonempty. simpl. auto.
  - (* a hint is requested *)
    unfold fetchHint. destruct (mystery s); simpl; exact Hinv.
  - (* the solve button *)
    intros _. simpl. now apply solveCaseEnabled_revealed.
  - (* a solution is submitted *)
    unfold submitSolution.
    destruct (negb (truthy (selectedOption s)) || negb (isSome (mystery s)));
      simpl; [exact Hinv|].
    destruct (mystery s) as [m|]; simpl; [|exact Hinv].
    destruct (strictEq (selectedOption s) (correctOptionId m)); simpl;
      intros Hg; discriminate Hg.
Qed.

Lemma reachable_run (es : list Event) (s : AppState) :
  reachable s -> runEnabled es s = true -> reachable (fst (run es s)).
Proof.
  revert s. induction es as [|e es IH]; intros s Hr Hen.
  - exact Hr.
  - simpl in Hen. apply andb_true_iff in Hen. destruct Hen as [He Hrest].
    rewrite run_cons. apply IH; [|exact Hrest].
    now apply reachable_step.
Qed.

Example sampleSession_solving :
  gameState (fst (run sampleSession initialState)) = Solving
  /\ revealedClues (fst (run sampleSession initialState)) = [1].
Proof. split; reflexivity. Qed.

Example solve_disabled_at_case_start :
  enabled ESolveCase samplePlaying = false.
Proof. reflexivity. Qed.

Lemma enters_solving_by_solve_only (e : Event) (s : AppState) :
  gameState s <> Solving ->
  gameState (fst (step e s)) = Solving ->
  e = ESolveCase.
Proof.
  intros Hg Hs.
  destruct e; simpl step in Hs; try reflexivity; exfalso;
    try (simpl in Hs; first [discriminate Hs | exact (Hg Hs)]).
  - unfold initialAuthCheck in Hs.
    destruct currentUser, hasApiKey; simpl in Hs; discriminate Hs.
  - unfold handleClueClick in Hs.
    destruct (includes (lockedClues s) clueId); simpl in Hs;
      rewrite ?revealClue_gameState in Hs; exact (Hg Hs).
  - unfold handlePuzzleSuccess in Hs.
    destruct (activePuzzleClueId s); simpl in Hs;
      rewrite ?revealClue_gameState in Hs; exact (Hg Hs).
  - unfold fetchHint in Hs. destruct (mystery s); exact (Hg Hs).
  - unfold submitSolution in Hs.
    destruct (negb (truthy (selectedOption s)) || negb (isSome (mystery s)));
      [exact (Hg Hs)|].
    destruct (mystery s) as [m|]; [|exact (Hg Hs)].
    destruct (strictEq (selectedOption s) (correctOptionId m));
      simpl in Hs; discriminate Hs.
Qed.

(** C8. In every reachable state whose phase is [Solving] at least one
    clue is revealed.  The Solve Case control is disabled in every state
    with fewer than one revealed clue, and it is the only way into the
    [Solving] phase. *)
Theorem solving_needs_revealed_clue :
  (forall s : AppState,
     reachable s -> gameState s = Solving -> revealedClues s <> [])
  /\ (forall s : AppState,
        (List.length (revealedClues s) < 1)%nat ->
        enabled ESolveCase s = false)
  /\ (forall (e : Event) (s : AppState),
        enabled e s = true ->
        gameState s <> Solving ->
        gameState (fst (step e s)) = Solving ->
        e = ESolveCase /\ revealedClues s <> []).
Proof.
  split; [|split].
  - intros s Hr. change (solvingHasClue s).
    induction Hr as [|e s Hr IH Hen].
    + intros Hg. discriminate Hg.
    + now apply step_keeps_solvingHasClue.
  - intros s Hlen. simpl. unfold solveCaseEnabled.
    apply Nat.ltb_lt in Hlen. rewrite Hlen. simpl.
    now rewrite !andb_false_r.
  - intros e s Hen Hg Hs.
    assert (He : e = ESolveCase)
      by now apply (enters_solving_by_solve_only e s).
    subst e. split; [reflexivity|].
    now apply solveCaseEnabled_revealed.
Qed.

Lemma solving_needs_revealed_clue_witness :
  revealedClues (fst (run sampleSession initialState)) <> []
  /\ enabled ESolveCase samplePlaying = false
  /\ revealedClues (fst (handleClueClick 1 samplePlaying)) <> [].
Proof.
  split; [|split].
  - apply (proj1 solving_needs_revealed_clue).
    + apply reachable_run; [apply reachable_initial | reflexivity].
    + reflexivity.
  - apply (proj1 (proj2 solving_needs_revealed_clue)). simpl. lia.
  - apply (proj2 (proj2 solving_needs_revealed_clue) ESolveCase
             (fst (handleClueClick 1 samplePlaying))).
    + reflexivity.
    + discriminate.
    + reflexivity.
Defined.

(** ** Disjointness and the arrival of a generated case *)

(** C1, as stated, fails: the lock computation of a new case can land on
    reveals made in the meantime.  In the session with two generations in
    flight every event is enabled, the last event is the lock computation
    of the case now on the board, and right after it clue 2 is both
    revealed and locked; it still is after a further click. *)
Lemma late_generation_locks_revealed_clue :
  let s := fst (run lateGenerationSession initialState) in
  runEnabled lateGenerationSession initialState = true
  /\ reachable s
  /\ gameState s = Playing
  /\ mystery s = Some sampleCase
  /\ lockedClues s = computeLocks Hard sampleRandom (clues sampleCase)
  /\ revealedClues s = [2]
  /\ lockedClues s = [2]
  /\ ~ disjoint (revealedClues s) (lockedClues s)
  /\ ~ disjoint
        (revealedClues (fst (run (map gateEvent [ClueClick 1]) s)))
        (lockedClues (fst (run (map gateEvent [ClueClick 1]) s))).
Proof.
  cbv zeta. repeat split; try reflexivity.
  - apply reachable_run; [apply reachable_initial | reflexivity].
  - intros H. apply (H 2); simpl; now left.
  - intros H. apply (H 2); simpl; now left.
Qed.

(** C1, amended.  When the lock computation of a new case finds none of
    the ids it locks among the revealed ids, every sequence of clue-gate
    operations that follows leaves the revealed ids and the locked ids
    disjoint (the sequence is arbitrary, so this holds after each of its
    operations).  That is the case whenever the generated case arrives
    with nothing revealed since [startGame] emptied the revealed array. *)
Theorem gate_disjoint_after_lock_computation :
  (forall (s : AppState) (d : Difficulty) (newCase : MysteryCase)
          (random : nat -> Q) (ops : list GateOp),
     disjoint (revealedClues s) (computeLocks d random (clues newCase)) ->
     let s' := fst (run (map gateEvent ops)
                        (fst (startGame_resolved d newCase random s))) in
     disjoint (revealedClues s') (lockedClues s'))
  /\ (forall (s0 : AppState) (d : Difficulty) (r : Q)
             (newCase : MysteryCase) (random : nat -> Q)
             (ops : list GateOp),
        let s' := fst (run (map gateEvent ops)
                           (caseStarted s0 d r newCase random)) in
        disjoint (revealedClues s') (lockedClues s')).
Proof.
  split.
  - intros s d newCase random ops H. cbv zeta.
    apply gate_run_disjoint. exact H.
  - intros s0 d r newCase random ops. cbv zeta.
    apply gate_run_disjoint.
    rewrite caseStarted_revealed. intros id [].
Qed.

Lemma gate_disjoint_after_lock_computation_witness :
  let s := fst (handleClueClick 1 samplePlaying) in
  let s' := fst (run (map gateEvent [ClueClick 2; PuzzleSuccess; ClueClick 3])
                     (fst (startGame_resolved Hard sampleCase sampleRandom
                             s))) in
  disjoint (revealedClues s') (lockedClues s').
Proof.
  cbv zeta.
  apply (proj1 gate_disjoint_after_lock_computation
           (fst (handleClueClick 1 samplePlaying)) Hard sampleCase
           sampleRandom [ClueClick 2; PuzzleSuccess; ClueClick 3]).
  intros id Hr Hl. simpl in Hr, Hl.
  destruct Hr as [<-|[]]. destruct Hl as [Hl|[]]. discriminate Hl.
Defined.

(** ** The displayed reward *)

Lemma lastAddXp_app (out1 out2 : list Effect) (default : Z) :
  lastAddXp (out1 ++ out2) default = lastAddXp out2 (lastAddXp out1 default).
Proof.
  revert default. induction out1 as [|ef out1 IH]; intros default; simpl.
  - reflexivity.
  - destruct ef; apply IH.
Qed.

Lemma revealClue_xpGained (clueId : Z) (s : AppState) :
  xpGained (revealClue clueId s) = xpGained s.
Proof. unfold revealClue. now destruct (includes (revealedClues s) clueId). Qed.

(** What one event does to [xpGained]: nothing, unless it is a submission
    that takes the correct branch. *)
Lemma step_xpGained (e : Event) (s : AppState) :
  (xpGained (fst (step e s)) = xpGained s
   /\ forall amount, ~ In (CallAddXp amount) (snd (step e s)))
  \/ (e = ESubmitSolution
      /\ exists m, mystery s = Some m
           /\ truthy (selectedOption s) = true
           /\ strictEq (selectedOption s) (correctOptionId m) = true
           /\ xpGained (fst (step e s)) = xp (difficulty m)
           /\ snd (step e s) = [CallAddXp (xp (difficulty m))]).
Proof.
  destruct e; simpl step;
    try (left; split; [reflexivity | simpl; intros amount H; intuition discriminate]).
  - left. unfold initialAuthCheck.
    destruct currentUser, hasApiKey; simpl; split;
      try reflexivity; intros amount [].
  - left. unfold handleClueClick.
    destruct (includes (lockedClues s) clueId); simpl;
      rewrite ?revealClue_xpGained; split; try reflexivity; intros amount [].
  - left. unfold handlePuzzleSuccess.
    destruct (activePuzzleClueId s); simpl;
      rewrite ?revealClue_xpGained; split; try reflexivity; intros amount [].
  - left. unfold fetchHint. destruct (mystery s); simpl; split;
      try reflexivity; intros amount H; intuition discriminate.
  - unfold submitSolution.
    destruct (truthy (selectedOption s)) eqn:Ht; simpl;
      [|left; split; [reflexivity | intros amount []]].
    destruct (mystery s) as [m|] eqn:Hm; simpl;
      [|left; split; [reflexivity | intros amount []]].
    destruct (strictEq (selectedOption s) (correctOptionId m)) eqn:He; simpl.
    + right. split; [reflexivity|]. exists m. repeat split; assumption.
    + left. split; [reflexivity | intros amount []].
  - left. unfold submitSolution_resolved. destruct leveledUp; simpl; split;
      try reflexivity; intros amount H; intuition discriminate.
Qed.

Lemma lastAddXp_none (out : list Effect) (default : Z) :
  (forall amount, ~ In (CallAddXp amount) out) ->
  lastAddXp out default = default.
Proof.
  induction out as [|ef out IH]; simpl; intros H; [reflexivity|].
  destruct ef; try (apply IH; intros a Ha; apply (H a); now right).
  exfalso. apply (H amount). now left.
Qed.

Lemma step_xpGained_last (e : Event) (s : AppState) :
  xpGained (fst (step e s)) = lastAddXp (snd (step e s)) (xpGained s).
Proof.
  destruct (step_xpGained e s) as [[Hsame Hnone]|[_ [m [_ [_ [_ [Hx Hout]]]]]]].
  - now rewrite lastAddXp_none.
  - now rewrite Hx, Hout.
Qed.

Lemma run_xpGained_last (es : list Event) (s : AppState) :
  xpGained (fst (run es s)) = lastAddXp (snd (run es s)) (xpGained s).
Proof.
  revert s. induction es as [|e es IH]; intros s; [reflexivity|].
  simpl. pose proof (step_xpGained_last e s) as Hstep.
  destruct (step e s) as [s1 out1]. simpl in Hstep.
  pose proof (IH s1) as Hrest.
  destruct (run es s1) as [s2 out2]. simpl in *.
  now rewrite lastAddXp_app, <- Hstep.
Qed.

Example sampleRevealSession_display :
  let r := run sampleRevealSession initialState in
  gameState (fst r) = Success
  /\ xpGained (fst r) = 200
  /\ snd r = [CallGenerateMystery Hard; CallAddXp 200;
              CallGenerateMystery Hard].
Proof. repeat split; reflexivity. Qed.

(** C10. [xpGained] changes only when a submission takes the correct
    branch, which sets it to the reward it passes to [addXp]; [startGame]
    (before and after the generation) and reveal-answer leave it alone.
    Hence after any session [xpGained] is the amount of the last [addXp]
    call, 0 when there was none; in particular this is what a session
    ending with reveal-answer shows on the Success screen, and that last
    step adds no call. *)
Theorem displayed_reward_is_last_correct_solve :
  (forall (e : Event) (s : AppState),
     xpGained (fst (step e s)) = xpGained s
     \/ (e = ESubmitSolution
         /\ exists m, mystery s = Some m
              /\ truthy (selectedOption s) = true
              /\ strictEq (selectedOption s) (correctOptionId m) = true
              /\ xpGained (fst (step e s)) = xp (difficulty m)
              /\ snd (step e s) = [CallAddXp (xp (difficulty m))]))
  /\ (forall d r s, xpGained (fst (startGame d r s)) = xpGained s)
  /\ (forall d newCase random s,
        xpGained (fst (startGame_resolved d newCase random s)) = xpGained s)
  /\ (forall s, xpGained (fst (revealAnswer s)) = xpGained s)
  /\ (forall es : list Event,
        xpGained (fst (run es initialState))
        = lastAddXp (snd (run es initialState)) 0)
  /\ (forall es : list Event,
        let before := run es initialState in
        let after := run (es ++ [ERevealAnswer]) initialState in
        gameState (fst after) = Success
        /\ xpGained (fst after) = lastAddXp (snd before) 0
        /\ snd after = snd before).
Proof.
  split; [|split; [|split; [|split; [|split]]]]; try reflexivity.
  - intros e s. destruct (step_xpGained e s) as [[H _]|H]; [now left|now right].
  - intros es. apply (run_xpGained_last es initialState).
  - intros es. cbv zeta. rewrite run_app. simpl.
    rewrite app_nil_r. repeat split.
    apply (run_xpGained_last es initialState).
Qed.

(** * Further properties of the handlers *)

(** ** The revealed array *)

Lemma NoDup_snoc {A : Type} (l : list A) (x : A) :
  NoDup l -> ~ In x l -> NoDup (l ++ [x]).
Proof.
  induction l as [|a l IH]; simpl; intros Hnd Hx.
  - constructor; [intros []|constructor].
  - inversion Hnd as [|? ? Ha Hl]; subst. constructor.
    + rewrite in_app_iff. simpl. intros [H|[H|[]]]; [now apply Ha|].
      apply Hx. now left.
    + apply IH; [assumption|]. intros H. apply Hx. now right.
Qed.

Lemma revealClue_NoDup (clueId : Z) (s : AppState) :
  NoDup (revealedClues s) -> NoDup (revealedClues (revealClue clueId s)).
Proof.
  intros H. rewrite revealClue_revealed.
  destruct (includes (revealedClues s) clueId) eqn:E; [exact H|].
  apply NoDup_snoc; [exact H|]. now apply includes_not_In.
Qed.

Lemma step_revealed_NoDup (e : Event) (s : AppState) :
  NoDup (revealedClues s) -> NoDup (revealedClues (fst (step e s))).
Proof.
  intros H. destruct e; simpl step; try exact H; try (simpl; constructor).
  - unfold initialAuthCheck. destruct currentUser, hasApiKey; exact H.
  - unfold handleClueClick.
    destruct (includes (lockedClues s) clueId); simpl; [exact H|].
    now apply revealClue_NoDup.
  - unfold handlePuzzleSuccess.
    destruct (activePuzzleClueId s); simpl; [|exact H].
    now apply revealClue_NoDup.
  - unfold fetchHint. destruct (mystery s); exact H.
  - unfold submitSolution.
    destruct (negb (truthy (selectedOption s)) || negb (isSome (mystery s)));
      [exact H|].
    destruct (mystery s) as [m|]; [|exact H].
    destruct (strictEq (selectedOption s) (correctOptionId m)); exact H.
Qed.

Lemma run_revealed_NoDup (es : list Event) (s : AppState) :
  NoDup (revealedClues s) -> NoDup (revealedClues (fst (run es s))).
Proof.
  revert s. induction es as [|e es IH]; intros s H; [exact H|].
  rewrite run_cons. apply IH. now apply step_revealed_NoDup.
Qed.

(** X1. No clue id is ever listed twice in [revealedClues]: after any
    sequence of events from the initial state, and after any sequence of
    events that follows a case start, the array has no duplicates. *)
Theorem revealed_never_repeats :
  (forall es : list Event,
     NoDup (revealedClues (fst (run es initialState))))
  /\ (forall (s0 : AppState) (d : Difficulty) (r : Q) (newCase : MysteryCase)
             (random : nat -> Q) (es : list Event),
        NoDup (revealedClues
                 (fst (run es (caseStarted s0 d r newCase random))))).
Proof.
  split.
  - intros es. apply run_revealed_NoDup. constructor.
  - intros s0 d r newCase random es. apply run_revealed_NoDup.
    rewrite caseStarted_revealed. constructor.
Qed.

Lemma includes_snoc (arr : list Z) (x : Z) :
  includes (arr ++ [x]) x = true.
Proof. apply includes_In. rewrite in_app_iff. right. now left. Qed.

Lemma revealClue_twice (clueId : Z) (s : AppState) :
  revealClue clueId (revealClue clueId s) = revealClue clueId s.
Proof.
  unfold revealClue.
  destruct (includes (revealedClues s) clueId) eqn:E; simpl.
  - now rewrite E.
  - now rewrite includes_snoc.
Qed.

Lemma revealClue_known (clueId : Z) (s : AppState) :
  In clueId (revealedClues s) -> revealClue clueId s = s.
Proof.
  intros H. apply includes_In in H. unfold revealClue. now rewrite H.
Qed.

(** X2. Clicking a clue is idempotent: a second click on the same clue
    changes nothing more and issues nothing; and a click on a clue that is
    revealed and not locked changes nothing at all. *)
Theorem clue_click_idempotent :
  (forall (clueId : Z) (s : AppState),
     handleClueClick clueId (fst (handleClueClick clueId s))
     = handleClueClick clueId s)
  /\ (forall (clueId : Z) (s : AppState),
        In clueId (revealedClues s) ->
        ~ In clueId (lockedClues s) ->
        handleClueClick clueId s = (s, [])).
Proof.
  split.
  - intros clueId s. unfold handleClueClick.
    destruct (includes (lockedClues s) clueId) eqn:E; simpl.
    + now rewrite E.
    + rewrite revealClue_locked, E. now rewrite revealClue_twice.
  - intros clueId s Hr Hl. unfold handleClueClick.
    apply includes_not_In in Hl. rewrite Hl.
    now rewrite revealClue_known.
Qed.

Lemma clue_click_idempotent_witness :
  let s := fst (handleClueClick 1 samplePlaying) in
  handleClueClick 1 s = (s, []).
Proof.
  apply (proj2 clue_click_idempotent 1 (fst (handleClueClick 1 samplePlaying))).
  - simpl. now left.
  - simpl. intros [H|[]]. discriminate H.
Defined.

(** ** Locked clues and the puzzle *)

Lemma handleClueClick_locked (clueId : Z) (s : AppState) :
  lockedClues (fst (handleClueClick clueId s)) = lockedClues s.
Proof.
  unfold handleClueClick.
  destruct (includes (lockedClues s) clueId); simpl; [reflexivity|].
  apply revealClue_locked.
Qed.

Lemma handleClueClick_revealed_In (clueId : Z) (s : AppState) (x : Z) :
  In x (revealedClues (fst (handleClueClick clueId s))) ->
  In x (revealedClues s) \/ (x = clueId /\ ~ In clueId (lockedClues s)).
Proof.
  unfold handleClueClick.
  destruct (includes (lockedClues s) clueId) eqn:E; simpl.
  - now left.
  - intros H. apply revealClue_In in H. destruct H as [H| ->]; [now left|].
    right. split; [reflexivity|]. now apply includes_not_In.
Qed.

(** X3. Without a puzzle success nothing gets past a lock: along any
    sequence of clue clicks and puzzle closes the locked array stays as it
    is, and a locked clue that was not revealed before is not revealed
    after. *)
Theorem clicks_never_reveal_locked :
  forall (ops : list GateOp) (s : AppState),
    forallb noSuccess ops = true ->
    let s' := fst (run (map gateEvent ops) s) in
    lockedClues s' = lockedClues s
    /\ (forall id, In id (lockedClues s) ->
                   In id (revealedClues s') -> In id (revealedClues s)).
Proof.
  induction ops as [|op ops IH]; intros s Hops; cbv zeta.
  - split; [reflexivity|auto].
  - simpl in Hops. apply andb_true_iff in Hops. destruct Hops as [Hop Hops].
    change (map gateEvent (op :: ops))
      with (gateEvent op :: map gateEvent ops).
    rewrite run_cons.
    destruct (IH (fst (step (gateEvent op) s)) Hops) as [Hl Hr].
    destruct op; simpl in Hop; try discriminate Hop; simpl step in *.
    + rewrite handleClueClick_locked in Hl, Hr. split; [exact Hl|].
      intros id Hid Hin. specialize (Hr id Hid Hin).
      apply handleClueClick_revealed_In in Hr.
      destruct Hr as [Hr|[-> Hfree]]; [exact Hr|contradiction].
    + split; [exact Hl|exact Hr].
Qed.

Lemma clicks_never_reveal_locked_witness :
  let s' := fst (run (map gateEvent [ClueClick 2; PuzzleClose; ClueClick 1;
                                     ClueClick 2])
                     samplePlaying) in
  lockedClues s' = lockedClues samplePlaying
  /\ (forall id, In id (lockedClues samplePlaying) ->
                 In id (revealedClues s') ->
                 In id (revealedClues samplePlaying)).
Proof.
  apply (clicks_never_reveal_locked
           [ClueClick 2; PuzzleClose; ClueClick 1; ClueClick 2] samplePlaying).
  reflexivity.
Defined.

(** X4. A locked, unrevealed clue is revealed in two steps.  The click
    only opens its puzzle (the card stays sealed, nothing is revealed); the
    puzzle success then appends the clue to the revealed array, takes every
    occurrence of it out of the locked array and closes the puzzle, and the
    card shows the clue. *)
Theorem locked_clue_revealed_by_puzzle :
  forall (s : AppState) (clue : Clue),
    In (clue_id clue) (lockedClues s) ->
    ~ In (clue_id clue) (revealedClues s) ->
    let s1 := fst (handleClueClick (clue_id clue) s) in
    let s2 := fst (handlePuzzleSuccess s1) in
    clueCard s clue = SealedCard
    /\ revealedClues s1 = revealedClues s
    /\ lockedClues s1 = lockedClues s
    /\ activePuzzleClueId s1 = Some (clue_id clue)
    /\ clueCard s1 clue = SealedCard
    /\ revealedClues s2 = revealedClues s ++ [clue_id clue]
    /\ lockedClues s2
       = filter (fun id => negb (Z.eqb id (clue_id clue))) (lockedClues s)
    /\ ~ In (clue_id clue) (lockedClues s2)
    /\ activePuzzleClueId s2 = None
    /\ clueCard s2 clue = RevealedCard.
Proof.
  intros s clue Hl Hr. cbv zeta.
  pose proof Hl as El. apply includes_In in El.
  pose proof Hr as Er. apply includes_not_In in Er.
  unfold handleClueClick. rewrite El. simpl.
  unfold handlePuzzleSuccess. simpl.
  rewrite revealClue_revealed, revealClue_locked. simpl. rewrite Er.
  unfold clueCard. simpl.
  rewrite revealClue_revealed. simpl. rewrite Er, El, includes_snoc.
  repeat split.
  rewrite In_filter_neq. intros [_ H]. now apply H.
Qed.

Lemma locked_clue_revealed_by_puzzle_witness :
  let clue := {| clue_id := 2; clue_text := "The butler heard a crash";
                 clue_type := Testimony; clue_isRedHerring := false |} in
  let s2 := fst (handlePuzzleSuccess (fst (handleClueClick 2 samplePlaying))) in
  revealedClues s2 = [2] /\ clueCard s2 clue = RevealedCard.
Proof.
  cbv zeta.
  pose proof (locked_clue_revealed_by_puzzle samplePlaying
                {| clue_id := 2; clue_text := "The butler heard a crash";
                   clue_type := Testimony; clue_isRedHerring := false |})
    as H.
  simpl clue_id in H.
  assert (Hl : In 2 (lockedClues samplePlaying)) by (simpl; now left).
  assert (Hr : ~ In 2 (revealedClues samplePlaying)) by (intros []).
  destruct (H Hl Hr) as [_ [_ [_ [_ [_ [H6 [_ [_ [_ H10]]]]]]]]].
  split; [exact H6 | exact H10].
Defined.

(** ** The clue counter *)

Lemma gate_step_mystery (op : GateOp) (s : AppState) :
  mystery (fst (step (gateEvent op) s)) = mystery s.
Proof.
  destruct op; simpl step.
  - unfold handleClueClick, revealClue.
    destruct (includes (lockedClues s) clueId); simpl; [reflexivity|].
    now destruct (includes (revealedClues s) clueId).
  - unfold handlePuzzleSuccess, revealClue.
    destruct (activePuzzleClueId s); simpl; [|reflexivity].
    now destruct (negb (includes (revealedClues s) z)).
  - reflexivity.
Qed.

Lemma gate_run_mystery (ops : list GateOp) (s : AppState) :
  mystery (fst (run (map gateEvent ops) s)) = mystery s.
Proof.
  revert s. induction ops as [|op ops IH]; intros s; [reflexivity|].
  change (map gateEvent (op :: ops)) with (gateEvent op :: map gateEvent ops).
  now rewrite run_cons, IH, gate_step_mystery.
Qed.

(** Clicks on clues of the board keep the revealed ids, and the active
    puzzle clue, among the ids of the board. *)
Lemma gate_run_within (ids : list Z) (ops : list GateOp) :
  forall s : AppState,
    (forall id, In (ClueClick id) ops -> In id ids) ->
    incl (revealedClues s) ids ->
    (forall a, activePuzzleClueId s = Some a -> In a ids) ->
    incl (revealedClues (fst (run (map gateEvent ops) s))) ids.
Proof.
  induction ops as [|op ops IH]; intros s Hops Hrev Hact; [exact Hrev|].
  change (map gateEvent (op :: ops)) with (gateEvent op :: map gateEvent ops).
  rewrite run_cons. apply IH.
  - intros id Hid. apply Hops. now right.
  - destruct op; simpl step.
    + assert (Hc : In clueId ids) by (apply Hops; now left).
      intros x Hx. apply handleClueClick_revealed_In in Hx.
      destruct Hx as [Hx|[-> _]]; [now apply Hrev|exact Hc].
    + unfold handlePuzzleSuccess.
      destruct (activePuzzleClueId s) as [a|] eqn:Ea; simpl; [|exact Hrev].
      intros x Hx. apply revealClue_In in Hx. simpl in Hx.
      destruct Hx as [Hx| ->]; [now apply Hrev|now apply Hact].
    + exact Hrev.
  - destruct op; simpl step.
    + assert (Hc : In clueId ids) by (apply Hops; now left).
      unfold handleClueClick.
      destruct (includes (lockedClues s) clueId); simpl.
      * intros a Ha. now inversion Ha; subst.
      * rewrite revealClue_active. exact Hact.
    + unfold handlePuzzleSuccess.
      destruct (activePuzzleClueId s) as [a|] eqn:Ea; simpl.
      * intros b Hb. discriminate Hb.
      * rewrite Ea. intros b Hb. discriminate Hb.
    + simpl. intros b Hb. discriminate Hb.
Qed.

(** X5. The counter of the evidence board stays within the board.  In a
    state with a case, where the revealed ids are distinct ids of clues of
    that case and the active puzzle clue, if any, is a clue of that case,
    any sequence of gate operations whose clicks are on clues of the case
    leaves the number of revealed clues shown by the counter at most the
    number of clues of the case.  These conditions hold in the state
    reached by [startGame] immediately followed by the arrival of its
    case, when no puzzle was left open. *)
Theorem clues_found_bounded :
  (forall (s : AppState) (m : MysteryCase) (ops : list GateOp),
     mystery s = Some m ->
     NoDup (revealedClues s) ->
     incl (revealedClues s) (map clue_id (clues m)) ->
     (forall a, activePuzzleClueId s = Some a ->
                In a (map clue_id (clues m))) ->
     (forall id, In (ClueClick id) ops -> In id (map clue_id (clues m))) ->
     let s' := fst (run (map gateEvent ops) s) in
     cluesFound s'
     = Some (List.length (revealedClues s'), List.length (clues m))
     /\ (List.length (revealedClues s') <= List.length (clues m))%nat)
  /\ (forall (s0 : AppState) (d : Difficulty) (r : Q)
             (newCase : MysteryCase) (random : nat -> Q)
             (ops : list GateOp),
        activePuzzleClueId s0 = None ->
        (forall id, In (ClueClick id) ops ->
                    In id (map clue_id (clues newCase))) ->
        let s := fst (run (map gateEvent ops)
                          (caseStarted s0 d r newCase random)) in
        cluesFound s
        = Some (List.length (revealedClues s), List.length (clues newCase))
        /\ (List.length (revealedClues s) <= List.length (clues newCase))%nat).
Proof.
  assert (Hgen : forall (s : AppState) (m : MysteryCase) (ops : list GateOp),
     mystery s = Some m ->
     NoDup (revealedClues s) ->
     incl (revealedClues s) (map clue_id (clues m)) ->
     (forall a, activePuzzleClueId s = Some a ->
                In a (map clue_id (clues m))) ->
     (forall id, In (ClueClick id) ops -> In id (map clue_id (clues m))) ->
     cluesFound (fst (run (map gateEvent ops) s))
     = Some (List.length (revealedClues (fst (run (map gateEvent ops) s))),
             List.length (clues m))
     /\ (List.length (revealedClues (fst (run (map gateEvent ops) s)))
         <= List.length (clues m))%nat).
  { intros s m ops Hm Hnd Hincl Hact Hops. split.
    - unfold cluesFound. now rewrite gate_run_mystery, Hm.
    - rewrite <- (length_map clue_id (clues m)).
      apply NoDup_incl_length.
      + now apply run_revealed_NoDup.
      + now apply gate_run_within. }
  split.
  - intros s m ops Hm Hnd Hincl Hact Hops. cbv zeta. now apply Hgen.
  - intros s0 d r newCase random ops Hact Hops. cbv zeta.
    apply Hgen; try exact Hops.
    + reflexivity.
    + rewrite caseStarted_revealed. constructor.
    + rewrite caseStarted_revealed. intros x [].
    + intros a Ha. change (activePuzzleClueId s0 = Some a) in Ha.
      rewrite Hact in Ha. discriminate Ha.
Qed.

Lemma clues_found_bounded_witness :
  let s := fst (run (map gateEvent
                       [ClueClick 1; ClueClick 2; PuzzleSuccess; ClueClick 1;
                        ClueClick 3; ClueClick 4])
                    samplePlaying) in
  cluesFound s = Some (List.length (revealedClues s), 4%nat)
  /\ (List.length (revealedClues s) <= 4)%nat.
Proof.
  apply (proj2 clues_found_bounded initialState Hard (1 # 4) sampleCase
           sampleRandom
           [ClueClick 1; ClueClick 2; PuzzleSuccess; ClueClick 1;
            ClueClick 3; ClueClick 4]).
  - reflexivity.
  - intros id Hid. simpl in Hid. simpl.
    repeat (destruct Hid as [Hid|Hid];
            [try discriminate Hid; inversion Hid; subst; tauto|]).
    contradiction.
Defined.

(** The conditions matter: when a generation arrives over reveals made for
    another case, the counter shows three clues found out of two. *)
Example clues_found_after_late_generation :
  runEnabled lateShortCaseSession initialState = true
  /\ activePuzzleClueId (fst (run lateShortCaseSession initialState)) = None
  /\ cluesFound (fst (run lateShortCaseSession initialState))
     = Some (3%nat, 2%nat).
Proof. repeat split; reflexivity. Qed.

(** ** Bounds on the initial locks *)

Lemma length_filter_le {A : Type} (p : A -> bool) (l : list A) :
  (List.length (filter p l) <= List.length l)%nat.
Proof.
  induction l as [|a l IH]; simpl; [lia|]. destruct (p a); simpl; lia.
Qed.

Lemma length_filter_mono {A : Type} (p q : A -> bool) (l : list A) :
  (forall x, In x l -> p x = true -> q x = true) ->
  (List.length (filter p l) <= List.length (filter q l))%nat.
Proof.
  induction l as [|a l IH]; simpl; intros H; [lia|].
  assert (IH' := IH (fun x Hx => H x (or_intror Hx))).
  destruct (p a) eqn:Ep.
  - rewrite (H a (or_introl eq_refl) Ep). simpl. lia.
  - destruct (q a); simpl; lia.
Qed.

Lemma filter_incl_mono {A : Type} (p q : A -> bool) (l : list A) :
  (forall x, In x l -> p x = true -> q x = true) ->
  incl (filter p l) (filter q l).
Proof.
  intros H x Hx. apply filter_In in Hx. destruct Hx as [Hin Hp].
  apply filter_In. split; [exact Hin|]. now apply H.
Qed.

Lemma filter_all {A : Type} (p : A -> bool) (l : list A) :
  (forall x, In x l -> p x = true) -> filter p l = l.
Proof.
  induction l as [|a l IH]; simpl; intros H; [reflexivity|].
  rewrite (H a (or_introl eq_refl)). f_equal.
  apply IH. intros x Hx. apply H. now right.
Qed.

Lemma filter_none {A : Type} (p : A -> bool) (l : list A) :
  (forall x, In x l -> p x = false) -> filter p l = [].
Proof.
  induction l as [|a l IH]; simpl; intros H; [reflexivity|].
  rewrite (H a (or_introl eq_refl)).
  apply IH. intros x Hx. apply H. now right.
Qed.

Lemma map_fst_combine_same {A B : Type} (l : list A) (r : list B) :
  List.length r = List.length l -> map fst (combine l r) = l.
Proof.
  revert r. induction l as [|a l IH]; intros [|b r] H; simpl in *;
    try reflexivity; try discriminate H.
  f_equal. apply IH. now injection H.
Qed.

(** Picking from a list without repeated keys gives no repeated keys. *)
Lemma NoDup_map_picked {A B K : Type} (f : A -> K) (p : A * B -> bool)
    (l : list A) :
  NoDup (map f l) ->
  forall r : list B, NoDup (map f (map fst (filter p (combine l r)))).
Proof.
  induction l as [|a l IH]; simpl; intros Hnd r; [constructor|].
  inversion Hnd as [|? ? Ha Hl]; subst.
  destruct r as [|b r]; simpl; [constructor|].
  destruct (p (a, b)); simpl; [|now apply IH].
  constructor; [|now apply IH].
  intros Hin. apply Ha. rewrite map_map in Hin.
  apply in_map_iff in Hin. destruct Hin as [[a' b'] [Hf Hin]].
  apply filter_In in Hin. destruct Hin as [Hin _].
  apply in_combine_l in Hin. simpl in Hf. rewrite <- Hf. now apply in_map.
Qed.

Lemma NoDup_map_filter {A K : Type} (f : A -> K) (p : A -> bool)
    (l : list A) :
  NoDup (map f l) -> NoDup (map f (filter p l)).
Proof.
  induction l as [|a l IH]; simpl; intros Hnd; [constructor|].
  inversion Hnd as [|? ? Ha Hl]; subst.
  destruct (p a); simpl; [|now apply IH].
  constructor; [|now apply IH].
  intros Hin. apply Ha. apply in_map_iff in Hin.
  destruct Hin as [x [Hf Hx]]. apply filter_In in Hx.
  rewrite <- Hf. apply in_map. tauto.
Qed.

(** The draws given to the eligible clues of a board. *)
Lemma draws_of_eligible (random : nat -> Q) (cs : list Clue)
    (c : Clue) (q : Q) :
  In (c, q)
     (combine (filter isLockable cs)
              (map random (seq 0 (List.length (filter isLockable cs))))) ->
  exists n, (n < List.length (filter isLockable cs))%nat /\ q = random n.
Proof.
  intros H. apply in_combine_r in H. apply in_map_iff in H.
  destruct H as [n [Hq Hn]]. apply in_seq in Hn.
  exists n. split; [lia|now symmetry].
Qed.

(** X6. Bounds on the initial locks.  There is at most one lock per
    eligible clue, so none on a board without Physical Object or Testimony
    clues; when every draw made is below the threshold all eligible clues
    are locked, in board order, and when none is, nothing is locked; and
    when clue ids are unique no id is locked twice. *)
Theorem initial_locks_bounds :
  forall (d : Difficulty) (random : nat -> Q) (cs : list Clue),
    let locks := computeLocks d random cs in
    let eligible := filter isLockable cs in
    (List.length locks <= List.length eligible)%nat
    /\ (eligible = [] -> locks = [])
    /\ ((forall n, (n < List.length eligible)%nat ->
                   Qltb (random n) (chance d) = true) ->
        locks = map clue_id eligible)
    /\ ((forall n, (n < List.length eligible)%nat ->
                   Qltb (random n) (chance d) = false) ->
        locks = [])
    /\ (NoDup (map clue_id cs) -> NoDup locks).
Proof.
  intros d random cs. cbv zeta. rewrite computeLocks_picks. unfold picks.
  split; [|split; [|split; [|split]]].
  - rewrite !length_map.
    eapply Nat.le_trans; [apply length_filter_le|].
    rewrite length_combine, length_map, length_seq. lia.
  - intros ->. reflexivity.
  - intros H. rewrite filter_all.
    + rewrite map_fst_combine_same; [reflexivity|].
      now rewrite length_map, length_seq.
    + intros [c q] Hin. simpl.
      destruct (draws_of_eligible _ _ _ _ Hin) as [n [Hn ->]]. now apply H.
  - intros H. rewrite filter_none; [reflexivity|].
    intros [c q] Hin. simpl.
    destruct (draws_of_eligible _ _ _ _ Hin) as [n [Hn ->]]. now apply H.
  - intros Hnd. apply NoDup_map_picked. now apply NoDup_map_filter.
Qed.

Lemma initial_locks_bounds_witness :
  computeLocks Hard (fun _ => 1 # 8) sampleClues = [2; 3]
  /\ computeLocks Hard (fun _ => 7 # 8) sampleClues = []
  /\ NoDup (computeLocks Hard sampleRandom sampleClues).
Proof.
  split; [|split].
  - apply (proj1 (proj2 (proj2
             (initial_locks_bounds Hard (fun _ => 1 # 8) sampleClues)))).
    intros n _. reflexivity.
  - apply (proj1 (proj2 (proj2 (proj2
             (initial_locks_bounds Hard (fun _ => 7 # 8) sampleClues))))).
    intros n _. reflexivity.
  - apply (proj2 (proj2 (proj2 (proj2
             (initial_locks_bounds Hard sampleRandom sampleClues))))).
    simpl. repeat (constructor; [simpl; intuition discriminate|]).
    constructor.
Defined.

Lemma Qltb_lt (x y : Q) : Qltb x y = true <-> (x < y)%Q.
Proof.
  unfold Qltb. rewrite negb_true_iff. split.
  - intros H. apply Qnot_le_lt. intros Hle.
    apply Qle_bool_iff in Hle. congruence.
  - intros H. destruct (Qle_bool y x) eqn:E; [|reflexivity].
    apply Qle_bool_iff in E. now apply Qlt_not_le in H.
Qed.

Lemma chance_le_hard (d : Difficulty) : (chance d <= chance Hard)%Q.
Proof. destruct d; unfold chance, Qle; simpl; lia. Qed.

(** X7. Hard locks at least what the other difficulties lock.  For the
    same board and the same draws, every clue locked at any difficulty is
    locked at Hard, which never locks fewer clues; Easy and Medium lock the
    same clues. *)
Theorem hard_locks_most :
  forall (d : Difficulty) (random : nat -> Q) (cs : list Clue),
    incl (computeLocks d random cs) (computeLocks Hard random cs)
    /\ (List.length (computeLocks d random cs)
        <= List.length (computeLocks Hard random cs))%nat
    /\ computeLocks Easy random cs = computeLocks Medium random cs.
Proof.
  intros d random cs. rewrite !computeLocks_picks. unfold picks.
  assert (Hmono : forall x : Clue * Q,
            Qltb (snd x) (chance d) = true ->
            Qltb (snd x) (chance Hard) = true).
  { intros x H. apply Qltb_lt. apply Qltb_lt in H.
    eapply Qlt_le_trans; [exact H|apply chance_le_hard]. }
  split; [|split].
  - apply incl_map, incl_map, filter_incl_mono. intros x _. apply Hmono.
  - rewrite !length_map. apply length_filter_mono. intros x _. apply Hmono.
  - reflexivity.
Qed.

Example hard_locks_most_strict :
  computeLocks Medium sampleRandom sampleClues = []
  /\ computeLocks Hard sampleRandom sampleClues = [2].
Proof. split; reflexivity. Qed.

(** ** Starting a case *)

(** X8. A new case keeps nothing of the previous one.  The state a case
    starts in is determined by the new case, the requested difficulty and
    the draws, together with the variables [startGame] does not touch
    (user, active puzzle clue, hint-loading flag, level-up flag, displayed
    reward): two states that agree on these start the case in the same
    state, whatever their phase, case, reveals, locks, hint, selection,
    error and celebration were. *)
Theorem new_case_discards_previous :
  forall (s0 s0' : AppState) (d : Difficulty) (r : Q)
         (newCase : MysteryCase) (random : nat -> Q),
    user s0 = user s0' ->
    activePuzzleClueId s0 = activePuzzleClueId s0' ->
    isHintLoading s0 = isHintLoading s0' ->
    showLevelUp s0 = showLevelUp s0' ->
    xpGained s0 = xpGained s0' ->
    caseStarted s0 d r newCase random = caseStarted s0' d r newCase random.
Proof.
  intros s0 s0' d r newCase random Hu Ha Hh Hl Hx.
  destruct s0, s0'. simpl in Hu, Ha, Hh, Hl, Hx. subst.
  reflexivity.
Qed.

Lemma new_case_discards_previous_witness :
  caseStarted (fst (run sampleFailedSession initialState)) Easy (3 # 8)
              blankSuspectCase sampleRandom
  = caseStarted (fst (run sampleSession initialState)) Easy (3 # 8)
                blankSuspectCase sampleRandom.
Proof.
  apply new_case_discards_previous; vm_compute; reflexivity.
Defined.

(** ** Phases *)

(** The phase after an event: unchanged, or the one the handler sets. *)
Lemma step_phase (e : Event) (s : AppState) :
  gameState (fst (step e s)) = gameState s
  \/ match e with
     | EInitialAuthCheck (Some _) _ => gameState (fst (step e s)) = Idle
     | EInitialAuthCheck None _ => gameState (fst (step e s)) = Auth
     | ELogin _ => gameState (fst (step e s)) = Idle
     | ELogout => gameState (fst (step e s)) = Auth
     | EStartGame _ _ | ENextCase _ => gameState (fst (step e s)) = Loading
     | EGenerateResolved _ _ _ => gameState (fst (step e s)) = Playing
     | EGenerateRejected => gameState (fst (step e s)) = Idle
     | ESolveCase => gameState (fst (step e s)) = Solving
     | ECloseSolving | EReExamine => gameState (fst (step e s)) = Playing
     | ESubmitSolution =>
         gameState (fst (step e s)) = Playing
         \/ gameState (fst (step e s)) = Failure
     | ECelebrationComplete | ERevealAnswer =>
         gameState (fst (step e s)) = Success
     | EResetGame | EBackToDashboard => gameState (fst (step e s)) = Idle
     | _ => False
     end.
Proof.
  destruct e; simpl step.
  - right. unfold initialAuthCheck. now destruct currentUser, hasApiKey.
  - now right.
  - now right.
  - now right.
  - now right.
  - now right.
  - left. unfold handleClueClick.
    destruct (includes (lockedClues s) clueId); simpl; [reflexivity|].
    apply revealClue_gameState.
  - left. unfold handlePuzzleSuccess.
    destruct (activePuzzleClueId s); simpl; [|reflexivity].
    now rewrite revealClue_gameState.
  - now left.
  - left. unfold fetchHint. now destruct (mystery s).
  - now left.
  - now left.
  - now right.
  - now right.
  - now left.
  - unfold submitSolution.
    destruct (negb (truthy (selectedOption s)) || negb (isSome (mystery s)));
      [now left|].
    destruct (mystery s) as [m|]; [|now left].
    destruct (strictEq (selectedOption s) (correctOptionId m)); simpl; auto.
  - now left.
  - now left.
  - now left.
  - now right.
  - now right.
  - now right.
  - now right.
  - now right.
  - now left.
  - now right.
  - now left.
Qed.

Lemma submitSolution_to_Failure (s : AppState) :
  gameState s <> Failure ->
  gameState (fst (submitSolution s)) = Failure ->
  exists m sel, mystery s = Some m /\ selectedOption s = Some sel
                /\ sel <> EmptyString /\ sel <> correctOptionId m.
Proof.
  unfold submitSolution. intros Hg.
  destruct (truthy (selectedOption s)) eqn:Ht; simpl;
    [|intros H; now elim Hg].
  destruct (mystery s) as [m|]; simpl; [|intros H; now elim Hg].
  destruct (selectedOption s) as [sel|] eqn:Hsel; [|discriminate Ht].
  destruct (strictEq (Some sel) (correctOptionId m)) eqn:He; simpl;
    [discriminate|].
  intros _. exists m, sel. repeat split.
  - now apply truthy_Some.
  - intros Heq. apply strictEq_Some in Heq. congruence.
Qed.

(** X9. How a phase is entered.  [Failure] is entered only by a
    submission with an active case and a non-empty selection other than the
    culprit; [Success] only by the end of the celebration or by
    reveal-answer; [Loading] only by starting a game; [Auth] only by logout
    or by the mount check finding no user. *)
Theorem phase_entry :
  forall (e : Event) (s : AppState),
    (gameState s <> Failure ->
     gameState (fst (step e s)) = Failure ->
     e = ESubmitSolution
     /\ exists m sel, mystery s = Some m /\ selectedOption s = Some sel
                      /\ sel <> EmptyString /\ sel <> correctOptionId m)
    /\ (gameState s <> Success ->
        gameState (fst (step e s)) = Success ->
        e = ECelebrationComplete \/ e = ERevealAnswer)
    /\ (gameState s <> Loading ->
        gameState (fst (step e s)) = Loading ->
        (exists d r, e = EStartGame d r) \/ (exists r, e = ENextCase r))
    /\ (gameState s <> Auth ->
        gameState (fst (step e s)) = Auth ->
        e = ELogout \/ exists hasApiKey, e = EInitialAuthCheck None hasApiKey).
Proof.
  intros e s. pose proof (step_phase e s) as Hp.
  split; [|split; [|split]]; intros Hg Hs;
    (destruct Hp as [Hp|Hp]; [rewrite Hp in Hs; now elim Hg|]).
  - destruct e; try contradiction; try destruct currentUser;
      try destruct Hp as [Hp|Hp]; rewrite Hp in Hs; try discriminate Hs.
    split; [reflexivity|]. apply submitSolution_to_Failure; [exact Hg|].
    exact Hp.
  - destruct e; try contradiction; try destruct currentUser;
      try destruct Hp as [Hp|Hp]; rewrite Hp in Hs; try discriminate Hs;
      auto.
  - destruct e; try contradiction; try destruct currentUser;
      try destruct Hp as [Hp|Hp]; rewrite Hp in Hs; try discriminate Hs.
    + left. now exists d, r.
    + right. now exists r.
  - destruct e; try contradiction; try destruct currentUser;
      try destruct Hp as [Hp|Hp]; rewrite Hp in Hs; try discriminate Hs.
    + right. now exists hasApiKey.
    + now left.
Qed.

Lemma phase_entry_witness :
  exists m sel,
    mystery (sampleSolving "opt1") = Some m
    /\ selectedOption (sampleSolving "opt1") = Some sel
    /\ sel <> EmptyString /\ sel <> correctOptionId m.
Proof.
  apply (proj1 (phase_entry ESubmitSolution (sampleSolving "opt1"))).
  - discriminate.
  - reflexivity.
Defined.

(** ** Saving the reward *)

(** X10. A failed save does not hold the game back.  After a correct
    submission whose [addXp] call is rejected, the celebration still ends
    in [Success] and the Success screen shows the reward, while the user
    profile is the one from before the submission and no level-up notice
    is scheduled. *)
Theorem reward_shown_when_save_fails :
  forall (s : AppState) (m : MysteryCase),
    mystery s = Some m ->
    truthy (selectedOption s) = true ->
    strictEq (selectedOption s) (correctOptionId m) = true ->
    let res := run [ESubmitSolution; EAddXpRejected; ECelebrationComplete] s in
    gameState (fst res) = Success
    /\ isCelebrating (fst res) = false
    /\ xpGained (fst res) = xp (difficulty m)
    /\ user (fst res) = user s
    /\ showLevelUp (fst res) = showLevelUp s
    /\ snd res = [CallAddXp (xp (difficulty m)); ConsoleError].
Proof.
  intros s m Hm Ht He. cbv zeta. unfold run. simpl step.
  rewrite (submitSolution_correct s m Hm Ht He). simpl.
  repeat split.
Qed.

Lemma reward_shown_when_save_fails_witness :
  let res := run [ESubmitSolution; EAddXpRejected; ECelebrationComplete]
                 (sampleSolving "opt2") in
  gameState (fst res) = Success
  /\ isCelebrating (fst res) = false
  /\ xpGained (fst res) = xp (difficulty sampleCase)
  /\ user (fst res) = user (sampleSolving "opt2")
  /\ showLevelUp (fst res) = showLevelUp (sampleSolving "opt2")
  /\ snd res = [CallAddXp (xp (difficulty sampleCase)); ConsoleError].
Proof.
  apply (reward_shown_when_save_fails (sampleSolving "opt2") sampleCase);
    reflexivity.
Defined.

(** X11. The save and the celebration may finish in either order.  After
    a correct submission, the [addXp] result arriving before or after the
    end of the celebration gives the same state and the same calls: phase
    [Success], the user returned by [addXp], and a level-up timer of 3500
    scheduled exactly when [leveledUp] is set.  The notice itself appears
    only when that timer fires. *)
Theorem save_and_celebration_commute :
  forall (s : AppState) (m : MysteryCase) (resultUser : User)
         (leveledUp : bool),
    mystery s = Some m ->
    truthy (selectedOption s) = true ->
    strictEq (selectedOption s) (correctOptionId m) = true ->
    let saveFirst :=
      run [ESubmitSolution; EAddXpResolved resultUser leveledUp;
           ECelebrationComplete] s in
    let saveLast :=
      run [ESubmitSolution; ECelebrationComplete;
           EAddXpResolved resultUser leveledUp] s in
    saveFirst = saveLast
    /\ gameState (fst saveFirst) = Success
    /\ user (fst saveFirst) = Some resultUser
    /\ showLevelUp (fst saveFirst) = showLevelUp s
    /\ snd saveFirst
       = CallAddXp (xp (difficulty m))
         :: (if leveledUp then [SetTimeoutShowLevelUp 3500] else [])
    /\ showLevelUp (fst (run [ELevelUpTimer] (fst saveFirst))) = true.
Proof.
  intros s m resultUser leveledUp Hm Ht He. cbv zeta. unfold run.
  simpl step. rewrite (submitSolution_correct s m Hm Ht He).
  unfold submitSolution_resolved. simpl.
  destruct leveledUp; repeat split.
Qed.

Lemma save_and_celebration_commute_witness :
  let u := {| username := "holmes"; level := 2; currentXP := 0;
              xpToNextLevel := 200; casesSolved := 1; totalXp := 200 |} in
  run [ESubmitSolution; EAddXpResolved u true; ECelebrationComplete]
      (sampleSolving "opt2")
  = run [ESubmitSolution; ECelebrationComplete; EAddXpResolved u true]
        (sampleSolving "opt2").
Proof.
  cbv zeta.
  exact (proj1 (save_and_celebration_commute (sampleSolving "opt2") sampleCase
                  {| username := "holmes"; level := 2; currentXP := 0;
                     xpToNextLevel := 200; casesSolved := 1; totalXp := 200 |}
                  true eq_refl eq_refl eq_refl)).
Defined.

(** ** Hints *)

Lemma hintButtonEnabled_inv (s : AppState) :
  hintButtonEnabled s = true ->
  truthy (hint s) = false /\ revealedClues s <> []
  /\ isSome (mystery s) = true /\ gameState s = Playing.
Proof.
  unfold hintButtonEnabled, showsCaseBoard. rewrite !andb_true_iff.
  intros [[[[[_ _] [_ Hm]] Hg] Hh] Hr].
  apply negb_true_iff in Hh. repeat split; try assumption.
  - intros E. rewrite E in Hr. discriminate Hr.
  - destruct (gameState s); try discriminate Hg. reflexivity.
Qed.

(** X12. Hints.  The hint button is available only in [Playing] with a
    case, at least one revealed clue and no hint shown, and its handler
    sends the case and the current reveals to [getHint].  A rejected fetch
    stores the fallback text: the phase and the error are untouched and the
    button is gone, as it is after any non-empty hint; only an empty hint
    text leaves the button in place.  Starting a game clears the hint. *)
Theorem hint_fetch :
  (forall s : AppState,
     hintButtonEnabled s = true ->
     gameState s = Playing /\ revealedClues s <> []
     /\ exists m, mystery s = Some m
          /\ fetchHint s
             = (setIsHintLoading true s, [CallGetHint m (revealedClues s)]))
  /\ (forall s : AppState,
        let s' := fst (fetchHint_rejected s) in
        truthy (hint s') = true /\ hintButtonEnabled s' = false
        /\ gameState s' = gameState s /\ error s' = error s
        /\ isHintLoading s' = false /\ snd (fetchHint_rejected s) = [])
  /\ (forall (s : AppState) (hintText : string),
        hint (fst (fetchHint_resolved hintText s)) = Some hintText
        /\ isHintLoading (fst (fetchHint_resolved hintText s)) = false
        /\ (hintText <> EmptyString ->
            hintButtonEnabled (fst (fetchHint_resolved hintText s)) = false))
  /\ (forall (d : Difficulty) (r : Q) (s : AppState),
        hint (fst (startGame d r s)) = None).
Proof.
  split; [|split; [|split]].
  - intros s H. destruct (hintButtonEnabled_inv s H) as [_ [Hr [Hm Hg]]].
    split; [exact Hg|]. split; [exact Hr|].
    unfold fetchHint. destruct (mystery s) as [m|]; [|discriminate Hm].
    now exists m.
  - intros s. cbv zeta. unfold hintButtonEnabled. simpl.
    repeat split. now rewrite andb_false_r.
  - intros s hintText. repeat split.
    intros Hne. destruct hintText as [|c rest]; [now elim Hne|].
    unfold hintButtonEnabled. simpl. now rewrite andb_false_r.
  - reflexivity.
Qed.

Lemma hint_fetch_witness :
  let s := fst (handleClueClick 1 samplePlaying) in
  gameState s = Playing /\ revealedClues s <> []
  /\ exists m, mystery s = Some m
       /\ fetchHint s
          = (setIsHintLoading true s, [CallGetHint m (revealedClues s)]).
Proof.
  apply (proj1 hint_fetch (fst (handleClueClick 1 samplePlaying))).
  reflexivity.
Defined.

(** ** Screens *)

(** X13. The error screen is shown neither at start-up nor after a failed
    generation.  The mount check with a missing API key stores its message
    but leaves the phase at [Idle] or [Auth], where the login form or the
    main view is rendered; starting a game then clears the message.  A
    rejected generation stores its message and returns to [Idle], where the
    main view is rendered. *)
Theorem error_screen_not_shown :
  (forall (currentUser : option User) (hasApiKey : bool) (s : AppState),
     let s1 := fst (initialAuthCheck currentUser hasApiKey s) in
     screen s1 <> ErrorScreen
     /\ (hasApiKey = false -> truthy (error s1) = true)
     /\ forall d r, error (fst (startGame d r s1)) = None
                    /\ screen (fst (startGame d r s1)) = MainScreen)
  /\ (forall s : AppState,
        let s2 := fst (startGame_rejected s) in
        truthy (error s2) = true
        /\ gameState s2 = Idle
        /\ screen s2 = MainScreen).
Proof.
  split.
  - intros currentUser hasApiKey s. cbv zeta. unfold initialAuthCheck.
    destruct currentUser, hasApiKey; unfold screen, showsErrorScreen; simpl;
      repeat split; try discriminate; try reflexivity;
      rewrite ?andb_false_r; try discriminate; intros H; discriminate H.
  - intros s. cbv zeta. unfold screen, showsErrorScreen. simpl.
    repeat split. now rewrite andb_false_r.
Qed.

Lemma error_screen_not_shown_witness :
  truthy (error (fst (initialAuthCheck None false initialState))) = true.
Proof.
  apply (proj1 (proj2 (proj1 error_screen_not_shown None false initialState))).
  reflexivity.
Defined.

(** X14. A generation still pending at logout brings the board back.
    When a game is started, the user logs out, and the generation then
    resolves, the state has no user, yet the phase is [Playing] with the
    new case and the main view with the case board is rendered. *)
Theorem pending_generation_survives_logout :
  forall (s : AppState) (d : Difficulty) (r : Q) (newCase : MysteryCase)
         (random : nat -> Q),
    let res := run [EStartGame d r; ELogout;
                    EGenerateResolved d newCase random] s in
    user (fst res) = None
    /\ gameState (fst res) = Playing
    /\ mystery (fst res) = Some newCase
    /\ lockedClues (fst res) = computeLocks d random (clues newCase)
    /\ screen (fst res) = MainScreen
    /\ showsCaseBoard (fst res) = true
    /\ snd res = [CallGenerateMystery d; CallLogout].
Proof.
  intros s d r newCase random. cbv zeta. repeat split.
Qed.

(** ** Doubles and the loading message *)

Lemma two_power_pos (e : Z) : (0 < 2 ^ e)%Q.
Proof. apply Qpower_0_lt. reflexivity. Qed.

Lemma Qpower2_inject (n : Z) : 0 <= n -> (inject_Z (2 ^ n) == 2 ^ n)%Q.
Proof. intros H. now rewrite Zpower_Qpower. Qed.

(** [2 ^ log2floor x <= x < 2 ^ (log2floor x + 1)]. *)
Lemma log2floor_spec (x : Q) :
  (0 < x)%Q ->
  (2 ^ log2floor x <= x)%Q /\ (x < 2 ^ (log2floor x + 1))%Q.
Proof.
  intros Hx. unfold log2floor.
  destruct x as [a b]. simpl Qnum. simpl Qden.
  assert (Ha : 0 < a) by (unfold Qlt in Hx; simpl in Hx; lia).
  set (la := Z.log2 a). set (lb := Z.log2 (Z.pos b)).
  assert (Hla : 2 ^ la <= a < 2 ^ (la + 1)).
  { pose proof (Z.log2_spec a Ha) as H. unfold la.
    replace (Z.log2 a + 1) with (Z.succ (Z.log2 a)) by lia. exact H. }
  assert (Hlb : 2 ^ lb <= Z.pos b < 2 ^ (lb + 1)).
  { pose proof (Z.log2_spec (Z.pos b) (Pos2Z.is_pos b)) as H. unfold lb.
    replace (Z.log2 (Z.pos b) + 1) with (Z.succ (Z.log2 (Z.pos b))) by lia.
    exact H. }
  assert (Hla0 : 0 <= la) by apply Z.log2_nonneg.
  assert (Hlb0 : 0 <= lb) by apply Z.log2_nonneg.
  assert (Hab : (a # b == inject_Z a / inject_Z (Z.pos b))%Q)
    by (rewrite Qmake_Qdiv; reflexivity).
  assert (Hbq : (0 < inject_Z (Z.pos b))%Q) by reflexivity.
  assert (Hlow : (2 ^ (la - lb - 1) <= a # b)%Q).
  { rewrite Hab. replace (la - lb - 1) with (la - (lb + 1)) by lia.
    rewrite Qpower_minus by discriminate.
    rewrite <- !Qpower2_inject by lia.
    apply Qle_shift_div_l; [exact Hbq|].
    unfold Qdiv. rewrite <- Qmult_assoc.
    rewrite (Qmult_comm (/ _)).
    rewrite Qmult_assoc.
    apply Qle_shift_div_r.
    - change 0%Q with (inject_Z 0). rewrite <- Zlt_Qlt.
      apply Z.pow_pos_nonneg; lia.
    - rewrite <- !inject_Z_mult, <- Zle_Qle.
      assert (0 < 2 ^ la) by (apply Z.pow_pos_nonneg; lia). nia. }
  assert (Hup : (a # b < 2 ^ (la - lb + 1))%Q).
  { rewrite Hab. replace (la - lb + 1) with ((la + 1) - lb) by lia.
    rewrite Qpower_minus by discriminate.
    rewrite <- !Qpower2_inject by lia.
    apply Qlt_shift_div_r; [exact Hbq|].
    unfold Qdiv. rewrite <- Qmult_assoc.
    rewrite (Qmult_comm (/ _)).
    rewrite Qmult_assoc.
    apply Qlt_shift_div_l.
    - change 0%Q with (inject_Z 0). rewrite <- Zlt_Qlt.
      apply Z.pow_pos_nonneg; lia.
    - rewrite <- !inject_Z_mult, <- Zlt_Qlt.
      assert (0 < 2 ^ lb) by (apply Z.pow_pos_nonneg; lia). nia. }
  destruct (Qle_bool (2 ^ (la - lb)) (a # b)) eqn:E.
  - split; [now apply Qle_bool_iff|exact Hup].
  - split; [exact Hlow|].
    replace (la - lb - 1 + 1) with (la - lb) by lia.
    apply Qnot_le_lt. intros H. apply Qle_bool_iff in H. congruence.
Qed.

Lemma log2floor_below (x : Q) (n : Z) :
  (0 < x)%Q -> (x < 2 ^ n)%Q -> log2floor x < n.
Proof.
  intros Hx Hlt. destruct (log2floor_spec x Hx) as [Hlow _].
  apply (Qpower_lt_compat_l_inv 2); [|reflexivity].
  eapply Qle_lt_trans; eassumption.
Qed.

Lemma log2floor_above (x : Q) (n : Z) :
  (0 < x)%Q -> (2 ^ n <= x)%Q -> n <= log2floor x.
Proof.
  intros Hx Hle. destruct (log2floor_spec x Hx) as [_ Hup].
  assert (n < log2floor x + 1); [|lia].
  apply (Qpower_lt_compat_l_inv 2); [|reflexivity].
  eapply Qle_lt_trans; eassumption.
Qed.

Lemma roundNearestEven_bounds (q : Q) :
  Qfloor q <= roundNearestEven q
  /\ (inject_Z (roundNearestEven q) <= q + (1 # 2))%Q.
Proof.
  unfold roundNearestEven.
  pose proof (Qfloor_le q) as Hfl.
  destruct (Qcompare (q - inject_Z (Qfloor q)) (1 # 2)) eqn:E.
  - apply Qeq_alt in E.
    destruct (Z.even (Qfloor q)); split; try lia;
      rewrite ?inject_Z_plus; change (inject_Z 1) with 1%Q; lra.
  - apply Qlt_alt in E. split; [lia|lra].
  - apply Qgt_alt in E. split; [lia|].
    rewrite inject_Z_plus. change (inject_Z 1) with 1%Q. lra.
Qed.

(** Rounding moves a positive number up by at most half a unit in the last
    place, and never below zero. *)
Lemma roundDouble_bounds (x : Q) :
  (0 < x)%Q ->
  (0 <= roundDouble x)%Q
  /\ (roundDouble x <= x + 2 ^ ulpExponent x * (1 # 2))%Q.
Proof.
  intros Hx. unfold roundDouble.
  destruct (Qle_bool x 0) eqn:E; [apply Qle_bool_iff in E; lra|].
  rewrite Qred_correct.
  set (u := ulpExponent x).
  pose proof (two_power_pos u) as Hp.
  assert (Hq : (0 <= x / 2 ^ u)%Q).
  { apply Qle_shift_div_l; [exact Hp|]. lra. }
  destruct (roundNearestEven_bounds (x / 2 ^ u)) as [Hfl Hup].
  assert (H0 : 0 <= roundNearestEven (x / 2 ^ u)).
  { assert (0 <= Qfloor (x / 2 ^ u)); [|lia].
    change 0 with (Qfloor 0). now apply Qfloor_resp_le. }
  split.
  - apply Qmult_le_0_compat; [|lra].
    change 0%Q with (inject_Z 0). now rewrite <- Zle_Qle.
  - apply Qle_trans with ((x / 2 ^ u + (1 # 2)) * 2 ^ u)%Q.
    + apply Qmult_le_compat_r; [exact Hup|lra].
    + assert (Heq : ((x / 2 ^ u + (1 # 2)) * 2 ^ u
                     == x + 2 ^ u * (1 # 2))%Q).
      { field. intros H. rewrite H in Hp. lra. }
      rewrite Heq. apply Qle_refl.
Qed.

(** A double below 1 is at most [1 - 2 ^ -53]. *)
Lemma double_below_one (r : Q) :
  isDouble r -> (0 <= r)%Q -> (r < 1)%Q ->
  (r <= 1 - (1 # 9007199254740992))%Q.
Proof.
  intros Hd H0 H1.
  destruct (Qlt_le_dec r (1 # 2)) as [Hhalf|Hhalf]; [lra|].
  assert (Hpos : (0 < r)%Q) by lra.
  assert (He : log2floor r = -1).
  { assert (log2floor r < 0)
      by (apply log2floor_below; [exact Hpos|exact H1]).
    assert (-1 <= log2floor r)
      by (apply log2floor_above; [exact Hpos|exact Hhalf]).
    lia. }
  unfold isDouble, roundDouble in Hd.
  destruct (Qle_bool r 0) eqn:E; [apply Qle_bool_iff in E; lra|].
  rewrite Qred_correct in Hd.
  unfold ulpExponent in Hd. rewrite He in Hd.
  change (Z.max (-1) (-1022) - 52) with (-53) in Hd.
  change (2 ^ (-53))%Q with (1 # 9007199254740992)%Q in Hd.
  set (k := roundNearestEven (r / (1 # 9007199254740992))) in Hd.
  assert (Hk : k < 9007199254740992).
  { rewrite <- Hd in H1. unfold Qlt in H1. simpl in H1. lia. }
  rewrite <- Hd. unfold Qle, Qminus, Qplus, Qopp, Qmult, inject_Z. simpl. lia.
Qed.

(** [Math.floor(r * 7)] for a draw [r] that is at most [1 - 2 ^ -53]. *)
Lemma floor_times_seven (r : Q) :
  (0 <= r)%Q -> (r <= 1 - (1 # 9007199254740992))%Q ->
  0 <= Qfloor (mulDouble r (inject_Z 7)) < 7.
Proof.
  intros H0 H1. unfold mulDouble. change (inject_Z 7) with 7%Q.
  assert (Hx7 : (r * 7 <= 7 - (7 # 9007199254740992))%Q) by lra.
  set (x := (r * 7)%Q) in *.
  destruct (Qlt_le_dec 0 x) as [Hx|Hx].
  - assert (He : log2floor x < 3).
    { apply log2floor_below; [exact Hx|].
      change (2 ^ 3)%Q with 8%Q. clearbody x. lra. }
    assert (Hu : (2 ^ ulpExponent x <= 1 # 1125899906842624)%Q).
    { change (1 # 1125899906842624)%Q with (2 ^ (-50))%Q.
      apply Qpower_le_compat_l; [unfold ulpExponent; lia|discriminate]. }
    destruct (roundDouble_bounds x Hx) as [Hlo Hup].
    split.
    + change 0 with (Qfloor 0). now apply Qfloor_resp_le.
    + rewrite Zlt_Qlt. eapply Qle_lt_trans; [apply Qfloor_le|].
      change (inject_Z 7) with 7%Q.
      set (p := (2 ^ ulpExponent x)%Q) in *.
      set (y := roundDouble x) in *.
      clearbody p y x. lra.
  - unfold roundDouble.
    assert (E : Qle_bool x 0 = true) by now apply Qle_bool_iff.
    rewrite E. change (Qfloor 0) with 0. lia.
Qed.

(** The product is rounded before it is floored: for the double nearest
    to 4/7 the exact product is below 4 and the double product is 4. *)
Example loading_message_rounded_product :
  Qfloor ((2573485501354569 # 4503599627370496) * 7) = 3
  /\ Qfloor (mulDouble (2573485501354569 # 4503599627370496) 7) = 4
  /\ randomLoadingMessage (2573485501354569 # 4503599627370496)
     = "Looking for my magnifying glass...".
Proof. repeat split; vm_compute; reflexivity. Qed.

(** X15. The loading message is always one of the seven.  For every
    double [r] in [0, 1), as [Math.random()] gives, the index
    [Math.floor(r * LOADING_MESSAGES.length)], computed with the double
    product, stays inside [LOADING_MESSAGES], so [startGame] and the loading
    interval store one of its messages; and every message is picked by some
    double draw. *)
Theorem loading_message_in_range :
  (forall r : Q,
     isDouble r -> (0 <= r)%Q -> (r < 1)%Q ->
     In (randomLoadingMessage r) LOADING_MESSAGES
     /\ (forall d s, In (loadingMsg (fst (startGame d r s))) LOADING_MESSAGES)
     /\ (forall s, In (loadingMsg (fst (loadingTick r s))) LOADING_MESSAGES))
  /\ (forall msg : string,
        In msg LOADING_MESSAGES ->
        exists r : Q,
          isDouble r /\ (0 <= r)%Q /\ (r < 1)%Q
          /\ randomLoadingMessage r = msg).
Proof.
  split.
  - intros r Hd H0 H1.
    assert (Hin : In (randomLoadingMessage r) LOADING_MESSAGES).
    { unfold randomLoadingMessage. apply nth_In.
      change (List.length LOADING_MESSAGES) with 7%nat.
      change (Z.of_nat 7) with 7.
      pose proof (floor_times_seven r H0 (double_below_one r Hd H0 H1)).
      lia. }
    split; [exact Hin|]. split; intros; exact Hin.
  - intros msg Hin. simpl in Hin.
    destruct Hin as [<-|[<-|[<-|[<-|[<-|[<-|[<-|[]]]]]]]].
    + exists 0%Q. repeat split; vm_compute; congruence.
    + exists (1 # 4). repeat split; vm_compute; congruence.
    + exists (3 # 8). repeat split; vm_compute; congruence.
    + exists (1 # 2). repeat split; vm_compute; congruence.
    + exists (5 # 8). repeat split; vm_compute; congruence.
    + exists (3 # 4). repeat split; vm_compute; congruence.
    + exists (7 # 8). repeat split; vm_compute; congruence.
Qed.

Lemma loading_message_in_range_witness :
  In (randomLoadingMessage (1 # 4)) LOADING_MESSAGES.
Proof.
  apply (proj1 (proj1 loading_message_in_range (1 # 4)
                  ltac:(vm_compute; reflexivity)
                  ltac:(vm_compute; discriminate)
                  ltac:(vm_compute; reflexivity))).
Defined.

(** ** Icons and labels *)

(** X16. Each clue type has its own icon: on the string values of
    [ClueType], [getClueIcon] gives the eye for Observation, the message
    for Testimony, the magnifier for Physical Object and, by its default,
    the archive for Context, four different icons; every string that is
    none of the first three values gets the archive. *)
Theorem clue_icons_distinct :
  (forall t : ClueType,
     getClueIcon (ClueType_value t)
     = match t with
       | Observation => EyeIcon
       | Testimony => MessageSquareIcon
       | Physical => SearchIcon
       | Context => ArchiveIcon
       end)
  /\ (forall t1 t2 : ClueType,
        getClueIcon (ClueType_value t1) = getClueIcon (ClueType_value t2) ->
        t1 = t2)
  /\ (forall type : string,
        getClueIcon type = ArchiveIcon
        <-> type <> ClueType_value Observation
            /\ type <> ClueType_value Testimony
            /\ type <> ClueType_value Physical).
Proof.
  split; [|split].
  - intros t. now destruct t.
  - intros t1 t2. destruct t1, t2; simpl; intros H; try reflexivity;
      discriminate H.
  - intros type. unfold getClueIcon. simpl ClueType_value.
    destruct (String.eqb_spec type "Observation");
      [split; [discriminate|tauto]|].
    destruct (String.eqb_spec type "Testimony");
      [split; [discriminate|tauto]|].
    destruct (String.eqb_spec type "Physical Object");
      [split; [discriminate|tauto]|].
    tauto.
Qed.

Lemma clue_icons_distinct_witness :
  Physical = Physical
  /\ (getClueIcon "Context" = ArchiveIcon).
Proof.
  split.
  - apply (proj1 (proj2 clue_icons_distinct) Physical Physical). reflexivity.
  - apply (proj2 (proj2 clue_icons_distinct) "Context").
    repeat split; discriminate.
Defined.

(** X17. The reward announced is the reward granted.  The XP REWARD label
    of a difficulty card is the decimal writing of the amount a correct
    submission passes to [addXp] for a case of that difficulty. *)
Theorem reward_label_matches_reward :
  (forall d : Difficulty,
     rewardLabel d = NilZero.string_of_int (Z.to_int (xp d)))
  /\ (forall (s : AppState) (m : MysteryCase),
        mystery s = Some m ->
        truthy (selectedOption s) = true ->
        strictEq (selectedOption s) (correctOptionId m) = true ->
        exists amount,
          snd (submitSolution s) = [CallAddXp amount]
          /\ NilZero.string_of_int (Z.to_int amount)
             = rewardLabel (difficulty m)).
Proof.
  assert (H : forall d, rewardLabel d = NilZero.string_of_int (Z.to_int (xp d)))
    by (intros d; now destruct d).
  split; [exact H|].
  intros s m Hm Ht He. exists (xp (difficulty m)).
  rewrite (submitSolution_correct s m Hm Ht He). split; [reflexivity|].
  symmetry. apply H.
Qed.

Lemma reward_label_matches_reward_witness :
  exists amount,
    snd (submitSolution (sampleSolving "opt2")) = [CallAddXp amount]
    /\ NilZero.string_of_int (Z.to_int amount) = rewardLabel Hard.
Proof.
  exact (proj2 reward_label_matches_reward (sampleSolving "opt2") sampleCase
           eq_refl eq_refl eq_refl).
Defined.

(** ** The clue buttons *)

(** X18. A clue button that is enabled always does something.  Outside
    [Playing] and on a revealed clue the button is disabled.  When it is
    enabled the card is hidden or sealed: a click on a hidden card appends
    the clue to the revealed array and turns the card over; a click on a
    sealed card reveals nothing and makes the clue the active puzzle
    clue. *)
Theorem enabled_clue_button_acts :
  (forall (s : AppState) (clue : Clue),
     gameState s <> Playing \/ clueCard s clue = RevealedCard ->
     clueButtonDisabled s clue = true)
  /\ (forall (s : AppState) (clue : Clue),
        clueButtonDisabled s clue = false ->
        let s' := fst (handleClueClick (clue_id clue) s) in
        gameState s = Playing
        /\ ((clueCard s clue = HiddenCard
             /\ revealedClues s' = revealedClues s ++ [clue_id clue]
             /\ activePuzzleClueId s' = activePuzzleClueId s
             /\ clueCard s' clue = RevealedCard
             /\ clueButtonDisabled s' clue = true)
            \/ (clueCard s clue = SealedCard
                /\ revealedClues s' = revealedClues s
                /\ activePuzzleClueId s' = Some (clue_id clue)
                /\ clueCard s' clue = SealedCard))).
Proof.
  split.
  - intros s clue [Hg|Hc]; unfold clueButtonDisabled.
    + destruct (gameState s); try (now rewrite orb_true_r). now elim Hg.
    + unfold clueCard in Hc.
      destruct (includes (revealedClues s) (clue_id clue)); [reflexivity|].
      destruct (includes (lockedClues s) (clue_id clue)); discriminate Hc.
  - intros s clue Hen. cbv zeta. unfold clueButtonDisabled in Hen.
    apply orb_false_iff in Hen. destruct Hen as [Hr Hg].
    split; [destruct (gameState s); try discriminate Hg; reflexivity|].
    unfold clueCard, handleClueClick, clueButtonDisabled. rewrite Hr.
    destruct (includes (lockedClues s) (clue_id clue)) eqn:El; simpl.
    + right. rewrite Hr, El. repeat split.
    + left. rewrite revealClue_revealed, revealClue_active, Hr.
      rewrite includes_snoc. repeat split.
Qed.

Lemma enabled_clue_button_acts_witness :
  let clue := {| clue_id := 3; clue_text := "A broken vase";
                 clue_type := Physical; clue_isRedHerring := true |} in
  clueCard samplePlaying clue = HiddenCard
  /\ revealedClues (fst (handleClueClick 3 samplePlaying)) = [3].
Proof.
  cbv zeta.
  destruct (proj2 enabled_clue_button_acts samplePlaying
              {| clue_id := 3; clue_text := "A broken vase";
                 clue_type := Physical; clue_isRedHerring := true |}
              eq_refl) as [_ [[H1 [H2 _]]|[H1 _]]].
  - split; [exact H1|exact H2].
  - discriminate H1.
Defined.

(** ** Invariants of a whole session *)

Lemma step_keeps_locksFromCase (e : Event) (s : AppState) :
  locksFromCase s -> locksFromCase (fst (step e s)).
Proof.
  unfold locksFromCase. intros H.
  destruct e; simpl step; try exact H;
    try (simpl; intros m Hm; try discriminate Hm; intros id []).
  - unfold initialAuthCheck. destruct currentUser, hasApiKey; exact H.
  - simpl. intros m Hm id Hid. inversion Hm; subst m.
    rewrite computeLocks_picks in Hid.
    now apply picks_from_eligible in Hid.
  - intros m Hm id Hid.
    pose proof (gate_step_mystery (ClueClick clueId) s) as Hmy.
    simpl step in Hmy. rewrite Hmy in Hm.
    rewrite handleClueClick_locked in Hid. now apply (H m).
  - intros m Hm id Hid.
    pose proof (gate_step_mystery PuzzleSuccess s) as Hmy.
    simpl step in Hmy. rewrite Hmy in Hm.
    unfold handlePuzzleSuccess in Hid.
    destruct (activePuzzleClueId s) as [a|]; simpl in Hid;
      [|now apply (H m)].
    rewrite revealClue_locked in Hid. simpl in Hid.
    apply In_filter_neq in Hid. apply (H m Hm). tauto.
  - assert (Hm : mystery (fst (fetchHint s)) = mystery s)
      by (unfold fetchHint; destruct (mystery s) eqn:E; exact E).
    assert (Hl : lockedClues (fst (fetchHint s)) = lockedClues s)
      by (unfold fetchHint; now destruct (mystery s)).
    rewrite Hm, Hl. exact H.
  - assert (Hm : mystery (fst (submitSolution s)) = mystery s
                 /\ lockedClues (fst (submitSolution s)) = lockedClues s).
    { unfold submitSolution.
      destruct (negb (truthy (selectedOption s))
                || negb (isSome (mystery s))); [now split|].
      destruct (mystery s) as [m|] eqn:E; [|now split].
      now destruct (strictEq (selectedOption s) (correctOptionId m)). }
    destruct Hm as [Hm Hl]. rewrite Hm, Hl. exact H.
Qed.

Lemma run_keeps_locksFromCase (es : list Event) (s : AppState) :
  locksFromCase s -> locksFromCase (fst (run es s)).
Proof.
  revert s. induction es as [|e es IH]; intros s Hs; [exact Hs|].
  rewrite run_cons. apply IH. now apply step_keeps_locksFromCase.
Qed.

Lemma run_xpGained_values (es : list Event) (s : AppState) :
  xpGained s = 0 \/ xpGained s = 50 \/ xpGained s = 100 \/ xpGained s = 200 ->
  xpGained (fst (run es s)) = 0 \/ xpGained (fst (run es s)) = 50
  \/ xpGained (fst (run es s)) = 100 \/ xpGained (fst (run es s)) = 200.
Proof.
  revert s. induction es as [|e es IH]; intros s Hs; [exact Hs|].
  rewrite run_cons. apply IH.
  destruct (step_xpGained e s) as [[Hsame _]|[_ [m [_ [_ [_ [Hx _]]]]]]].
  - now rewrite Hsame.
  - rewrite Hx. destruct (difficulty m); simpl; auto.
Qed.

(** X19. Locks always belong to the case on the board.  After any
    sequence of events from the initial state, whenever a case is set,
    every id in the locked array is the id of a Physical Object or
    Testimony clue of that case. *)
Theorem locks_belong_to_case :
  forall (es : list Event) (m : MysteryCase) (id : Z),
    mystery (fst (run es initialState)) = Some m ->
    In id (lockedClues (fst (run es initialState))) ->
    exists c, In c (clues m) /\ clue_id c = id
              /\ (clue_type c = Physical \/ clue_type c = Testimony).
Proof.
  intros es m id Hm Hid.
  assert (H0 : locksFromCase initialState) by (intros m0 Hm0; discriminate Hm0).
  destruct (run_keeps_locksFromCase es initialState H0 m Hm id Hid)
    as [c [Hc [Hi Hl]]].
  exists c. rewrite <- isLockable_type. tauto.
Qed.

Lemma locks_belong_to_case_witness :
  exists c, In c (clues sampleCase) /\ clue_id c = 2
            /\ (clue_type c = Physical \/ clue_type c = Testimony).
Proof.
  apply (locks_belong_to_case sampleSession sampleCase 2).
  - reflexivity.
  - simpl. now left.
Defined.

(** X20. The displayed reward is 0, 50, 100 or 200 at every point of
    every session. *)
Theorem displayed_reward_values :
  forall es : list Event,
    let shown := xpGained (fst (run es initialState)) in
    shown = 0 \/ shown = 50 \/ shown = 100 \/ shown = 200.
Proof.
  intros es. cbv zeta. apply run_xpGained_values. now left.
Qed.

(** X21. The user profile is only ever replaced by what the
    authentication side hands over: an event that changes [user] is the
    mount check, a login, a logout or the result of [addXp]; no game
    handler touches it. *)
Theorem user_changed_only_by_auth :
  forall (e : Event) (s : AppState),
    user (fst (step e s)) = user s
    \/ (exists u hasApiKey,
          e = EInitialAuthCheck (Some u) hasApiKey
          /\ user (fst (step e s)) = Some u)
    \/ (exists u, e = ELogin u /\ user (fst (step e s)) = Some u)
    \/ (e = ELogout /\ user (fst (step e s)) = None)
    \/ (exists u leveledUp,
          e = EAddXpResolved u leveledUp /\ user (fst (step e s)) = Some u).
Proof.
  intros e s. destruct e; simpl step; try (now left).
  - unfold initialAuthCheck. destruct currentUser as [u|].
    + right. left. exists u, hasApiKey. now destruct hasApiKey.
    + left. now destruct hasApiKey.
  - right. right. left. now exists loggedInUser.
  - right. right. right. now left.
  - left. unfold handleClueClick, revealClue.
    destruct (includes (lockedClues s) clueId); simpl; [reflexivity|].
    now destruct (includes (revealedClues s) clueId).
  - left. unfold handlePuzzleSuccess, revealClue.
    destruct (activePuzzleClueId s); simpl; [|reflexivity].
    now destruct (negb (includes (revealedClues s) z)).
  - left. unfold fetchHint. now destruct (mystery s).
  - left. unfold submitSolution.
    destruct (negb (truthy (selectedOption s)) || negb (isSome (mystery s)));
      [reflexivity|].
    destruct (mystery s) as [m|]; [|reflexivity].
    now destruct (strictEq (selectedOption s) (correctOptionId m)).
  - right. right. right. right. now exists resultUser, leveledUp.
Qed.
